(** * Gate synthesis by variational circuit optimisation

    A shallow embedding of [doc/gallery/gate_synthesis/GateSynthesis.ipynb]:
    the parameter store, the layer function, the circuit, the cost
    evaluator, the optimisation loop and the process-fidelity diagnostics.

    Numbers are idealised: a TensorFlow [float32] is a real number of the
    Standard Library, a [complex64] a pair of reals.  Tensors of rank one and
    two are lists and lists of rows. *)

From Stdlib Require Import Reals List Lra Lia ZArith Bool PeanoNat.
Import ListNotations.

Open Scope R_scope.

(* ================================================================== *)
(** ** Complex scalars ([complex64], [complex128]) *)

Module Cplx.

Record complex : Type := mkC { Re : R; Im : R }.

Definition C0 : complex := mkC 0 0.
Definition C1 : complex := mkC 1 0.
Definition RtoC (x : R) : complex := mkC x 0.

Definition Cadd (a b : complex) : complex := mkC (Re a + Re b) (Im a + Im b).
Definition Cmul (a b : complex) : complex :=
  mkC (Re a * Re b - Im a * Im b) (Re a * Im b + Im a * Re b).
Definition Cconj (a : complex) : complex := mkC (Re a) (- Im a).
Definition Cscale (x : R) (a : complex) : complex := mkC (x * Re a) (x * Im a).

(** [|z|^2] and [np.abs z]. *)
Definition Cnorm2 (a : complex) : R := Re a * Re a + Im a * Im a.
Definition Cabs (a : complex) : R := sqrt (Cnorm2 a).

(** [e^{i t}]. *)
Definition Cexp_i (t : R) : complex := mkC (cos t) (sin t).

(** [z ** n] for a natural exponent; [z ** 0 = 1], also at [z = 0]. *)
Fixpoint Cpow (z : complex) (n : nat) : complex :=
  match n with
  | O => C1
  | S k => Cmul z (Cpow z k)
  end.

(** Sum of a list of complex numbers. *)
Definition Csum (l : list complex) : complex := fold_right Cadd C0 l.

End Cplx.
Import Cplx.

(* ================================================================== *)
(** ** Indexed sums, used to state results entry by entry *)

Fixpoint isum (n : nat) (f : nat -> R) : R :=
  match n with
  | O => 0
  | S k => isum k f + f k
  end.

Fixpoint icsum (n : nat) (f : nat -> complex) : complex :=
  match n with
  | O => C0
  | S k => Cadd (icsum k f) (f k)
  end.

(** Entry [(i, j)] of an identity matrix. *)
Definition delta (i j : nat) : complex := if (i =? j)%nat then C1 else C0.

(* ================================================================== *)
(** ** Array primitives of NumPy and TensorFlow used by the notebook *)

Module Np.

Definition vector := list complex.
Definition matrix := list (list complex).

(** A rank-two tensor of shape [(rows, cols)]. *)
Definition has_shape {A : Type} (m : list (list A)) (rows cols : nat) : Prop :=
  length m = rows /\ Forall (fun r => length r = cols) m.

(** [tf.reduce_sum] of a real vector. *)
Definition reduce_sum (l : list R) : R := fold_right Rplus 0 l.

(** [np.mean] / [tf.reduce_mean] of a real vector. *)
Definition mean (l : list R) : R := reduce_sum l / INR (length l).

(** Pointwise product of two vectors of the same length. *)
Fixpoint zip_mul (a b : vector) : vector :=
  match a, b with
  | x :: a', y :: b' => Cmul x y :: zip_mul a' b'
  | _, _ => []
  end.

(** [tf.einsum('bi,bi->b', a, b)]: both operands must have one shape; for
    each batch index the products over [i] are summed. *)
Fixpoint same_shape (a b : matrix) : bool :=
  match a, b with
  | [], [] => true
  | ra :: a', rb :: b' => (length ra =? length rb)%nat && same_shape a' b'
  | _, _ => false
  end.

Fixpoint einsum_rows (a b : matrix) : vector :=
  match a, b with
  | ra :: a', rb :: b' => Csum (zip_mul ra rb) :: einsum_rows a' b'
  | _, _ => []
  end.

Definition einsum_bi_bi_b (a b : matrix) : option vector :=
  if same_shape a b then Some (einsum_rows a b) else None.

(** [tf.conj] and [tf.real], elementwise. *)
Definition conj2 (a : matrix) : matrix := map (map Cconj) a.
Definition real1 (v : vector) : list R := map Re v.

(** Number of columns of a matrix given by its rows. *)
Definition ncols (m : matrix) : nat :=
  match m with
  | [] => O
  | r :: _ => length r
  end.

(** [np.zeros([rows, cols])]. *)
Definition zeros (rows cols : nat) : matrix := repeat (repeat C0 cols) rows.

(** Replace entry [k] of a row; a [k] past the end leaves the row as it is. *)
Fixpoint set_nth (k : nat) (v : complex) (row : vector) : vector :=
  match row, k with
  | [], _ => []
  | _ :: t, O => v :: t
  | x :: t, S k' => x :: set_nth k' v t
  end.

(** [np.fill_diagonal(a, v)] on a rank-two array: the entries [a[k, k]]
    with [k] below both dimensions are set, row after row. *)
Fixpoint fill_diagonal_from (k : nat) (a : matrix) (v : complex) : matrix :=
  match a with
  | [] => []
  | row :: rest => set_nth k v row :: fill_diagonal_from (S k) rest v
  end.

Definition fill_diagonal (a : matrix) (v : complex) : matrix :=
  fill_diagonal_from O a v.

(** [np.identity(n)]. *)
Definition identity (n : nat) : matrix := fill_diagonal (zeros n n) C1.

(** [a.T] of a rank-two array. *)
Definition transpose (a : matrix) : matrix :=
  map (fun j => map (fun row => nth j row C0) a) (seq 0 (ncols a)).

(** [a[:r, :c]]: slices stop at the end of the array. *)
Definition slice2 (a : matrix) (r c : nat) : matrix :=
  map (firstn c) (firstn r a).

(** [a[:, i]] for a natural [i]: an index past the last column raises
    [IndexError]. *)
Definition column (a : matrix) (i : nat) : option vector :=
  if (i <? ncols a)%nat then Some (map (fun row => nth i row C0) a) else None.

(** [np.array([a[:, i] for i in idx])]: the first failing index aborts. *)
Fixpoint columns (a : matrix) (idx : list nat) : option matrix :=
  match idx with
  | [] => Some []
  | i :: rest =>
      match column a i with
      | None => None
      | Some col =>
          match columns a rest with
          | None => None
          | Some cols => Some (col :: cols)
          end
      end
  end.

(** [np.arange(n)]. *)
Definition arange (n : nat) : list nat := seq 0 n.

(** [a[:g, :g] = v]: the value must have the shape of the slice, or size one
    along an axis (it is then repeated); otherwise NumPy raises
    [ValueError] (could not broadcast). *)
Definition broadcastable (have want : nat) : bool :=
  ((have =? want) || (have =? 1))%nat.

Definition bindex (have i : nat) : nat := if (have =? 1)%nat then O else i.

Fixpoint overwrite_row (j : nat) (c : nat) (src : nat -> complex) (row : vector)
  : vector :=
  match row with
  | [] => []
  | x :: t => (if (j <? c)%nat then src j else x) :: overwrite_row (S j) c src t
  end.

Fixpoint overwrite_rows (i : nat) (r c : nat) (src : nat -> nat -> complex)
  (a : matrix) : matrix :=
  match a with
  | [] => []
  | row :: rest =>
      (if (i <? r)%nat then overwrite_row O c (src i) row else row)
        :: overwrite_rows (S i) r c src rest
  end.

Definition setitem_block (a : matrix) (g : nat) (v : matrix) : option matrix :=
  let sr := Nat.min g (length a) in
  let sc := Nat.min g (ncols a) in
  if broadcastable (length v) sr && broadcastable (ncols v) sc then
    Some (overwrite_rows O sr sc
            (fun i j => nth (bindex (ncols v) j) (nth (bindex (length v) i) v []) C0)
            a)
  else None.

(** [a.flatten()], row-major. *)
Definition flatten (a : matrix) : vector := concat a.

(** [np.kron(a, b)] on rank-two arrays: block [(i, j)] is [a[i, j] * b]. *)
Definition kron (a b : matrix) : matrix :=
  flat_map
    (fun rowa => map (fun rowb => flat_map (fun x => map (Cmul x) rowb) rowa) b)
    a.

(** [m @ v] for a matrix and a vector: every row must have the length of
    [v], otherwise NumPy raises [ValueError]. *)
Definition matvec (m : matrix) (v : vector) : option vector :=
  if forallb (fun row => (length row =? length v)%nat) m
  then Some (map (fun row => Csum (zip_mul row v)) m)
  else None.

(** [np.vdot(a, b)]: the first argument is conjugated; sizes must agree. *)
Definition vdot (a b : vector) : option complex :=
  if (length a =? length b)%nat
  then Some (Csum (zip_mul (map Cconj a) b))
  else None.

(** [v / x] for a vector and a real scalar. *)
Definition vdiv (v : vector) (x : R) : vector := map (Cscale (/ x)) v.

(** [np.abs] of a real vector. *)
Definition abs1 (l : list R) : list R := map Rabs l.

(** [np.max] of a real vector: an empty array raises [ValueError]. *)
Definition np_max (l : list R) : option R :=
  match l with
  | [] => None
  | x :: t => Some (fold_left Rmax t x)
  end.

End Np.
Import Np.

(* ================================================================== *)
(** ** Parameter store (notebook cells 3 and 4) *)

Module Params.

(** The seven gate families; each is a TensorFlow variable of shape
    [[depth]]. *)
Inductive Family : Type :=
  | F_r1 | F_sq_r | F_sq_phi | F_r2 | F_d_r | F_d_phi | F_kappa.

Record GateParameterSet : Type := mkParams {
  r1 : list R;
  sq_r : list R;
  sq_phi : list R;
  r2 : list R;
  d_r : list R;
  d_phi : list R;
  kappa : list R
}.

Definition family (p : GateParameterSet) (f : Family) : list R :=
  match f with
  | F_r1 => r1 p
  | F_sq_r => sq_r p
  | F_sq_phi => sq_phi p
  | F_r2 => r2 p
  | F_d_r => d_r p
  | F_d_phi => d_phi p
  | F_kappa => kappa p
  end.

(** [tf.random_normal(shape=[n], mean, stddev)]: the op draws [n] standard
    normal variates from its own generator, multiplies them by [stddev] and
    adds [mean].  The variates are the generator's; they enter as the
    function [variate]. *)
Definition random_normal (variate : nat -> R) (n : nat) (mean stddev : R)
  : list R :=
  map (fun k => variate k * stddev + mean) (seq 0 n).

(** Cell 3: one [tf.random_normal] op per family, each with its own
    variates [draws f], the default mean [0.0] and the family's standard
    deviation. *)
Definition initialize (draws : Family -> nat -> R) (depth : nat)
  (passive_sd active_sd : R) : GateParameterSet :=
  {| sq_r := random_normal (draws F_sq_r) depth 0 active_sd;
     sq_phi := random_normal (draws F_sq_phi) depth 0 passive_sd;
     d_r := random_normal (draws F_d_r) depth 0 active_sd;
     d_phi := random_normal (draws F_d_phi) depth 0 passive_sd;
     r1 := random_normal (draws F_r1) depth 0 passive_sd;
     r2 := random_normal (draws F_r2) depth 0 passive_sd;
     kappa := random_normal (draws F_kappa) depth 0 active_sd |}.

(** Cell 4: [params = [r1, sq_r, sq_phi, r2, d_r, d_phi, kappa]]. *)
Definition params (p : GateParameterSet) : list (list R) :=
  [r1 p; sq_r p; sq_phi p; r2 p; d_r p; d_phi p; kappa p].

(** The families called passive and active, and the deviation each gets. *)
Definition passive (f : Family) : bool :=
  match f with
  | F_r1 | F_r2 | F_sq_phi | F_d_phi => true
  | F_sq_r | F_d_r | F_kappa => false
  end.

End Params.
Import Params.

(* ================================================================== *)
(** ** Layer function and circuit (notebook cells 5 and 8)

    [Gate(...) | q] appends a command to the program of the enclosing
    [with prog.context] block.  The program is the state of a small state
    and error monad; a gate argument such as [r1[i]] is a symbolic slice of
    a variable, checked against the variable's static shape [[depth]] when
    it is built. *)

Module Circuit.

(** [v[i]] for a variable [v] of one of the seven families. *)
Record TensorRef : Type := mkRef { ref_family : Family; ref_index : nat }.

Inductive Operation : Type :=
  | Ket (k : matrix)
  | Rgate (theta : TensorRef)
  | Sgate (r phi : TensorRef)
  | Dgate (r phi : TensorRef)
  | Kgate (kappa : TensorRef).

Record Command : Type := mkCommand { cmd_op : Operation; cmd_reg : list nat }.

Definition Program : Type := list Command.

Definition Prog (A : Type) : Type := Program -> option (A * Program).

Definition ret {A : Type} (a : A) : Prog A := fun p => Some (a, p).

Definition bind {A B : Type} (m : Prog A) (k : A -> Prog B) : Prog B :=
  fun p =>
    match m p with
    | None => None
    | Some (a, p') => k a p'
    end.

Notation "x <- m ;; k" := (bind m (fun x => k))
  (at level 61, m at next level, right associativity).
Notation "m ;;; k" := (bind m (fun _ => k))
  (at level 61, right associativity).

(** [op | q]. *)
Definition pipe (o : Operation) (regs : list nat) : Prog unit :=
  fun p => Some (tt, p ++ [mkCommand o regs]).

(** [v[i]]: a slice index outside the static shape [[depth]] is refused when
    the slice is built. *)
Definition getitem (depth : nat) (f : Family) (i : nat) : Prog TensorRef :=
  fun p => if (i <? depth)%nat then Some (mkRef f i, p) else None.

(** Cell 5:
<<
def layer(i, q):
    Rgate(r1[i]) | q
    Sgate(sq_r[i], sq_phi[i]) | q
    Rgate(r2[i]) | q
    Dgate(d_r[i], d_phi[i]) | q
    Kgate(kappa[i]) | q
    return q
>> *)
Definition layer (depth : nat) (i : nat) (q : nat) : Prog nat :=
  a <- getitem depth F_r1 i ;;
  pipe (Rgate a) [q] ;;;
  b <- getitem depth F_sq_r i ;;
  c <- getitem depth F_sq_phi i ;;
  pipe (Sgate b c) [q] ;;;
  d <- getitem depth F_r2 i ;;
  pipe (Rgate d) [q] ;;;
  e <- getitem depth F_d_r i ;;
  f <- getitem depth F_d_phi i ;;
  pipe (Dgate e f) [q] ;;;
  g <- getitem depth F_kappa i ;;
  pipe (Kgate g) [q] ;;;
  ret q.

(** [for k in range(depth): layer(k, q[0])], the loop variable running over
    the list [ks]. *)
Fixpoint layers (depth : nat) (ks : list nat) (q0 : nat) : Prog unit :=
  match ks with
  | [] => ret tt
  | k :: rest => layer depth k q0 ;;; layers depth rest q0
  end.

(** Cell 8, the body of [with prog.context as q]: the program has one
    mode, [q = (q[0],)]. *)
Definition circuit (depth : nat) (in_ket : matrix) : Prog unit :=
  pipe (Ket in_ket) [O] ;;;
  layers depth (seq 0 depth) O.

(** [prog = sf.Program(1)] starts empty; the result is the filled program. *)
Definition build (depth : nat) (in_ket : matrix) : option Program :=
  option_map snd (circuit depth in_ket []).

(** The five commands of layer [i] on mode [q]. *)
Definition layer_commands (i q : nat) : list Command :=
  [ mkCommand (Rgate (mkRef F_r1 i)) [q];
    mkCommand (Sgate (mkRef F_sq_r i) (mkRef F_sq_phi i)) [q];
    mkCommand (Rgate (mkRef F_r2 i)) [q];
    mkCommand (Dgate (mkRef F_d_r i) (mkRef F_d_phi i)) [q];
    mkCommand (Kgate (mkRef F_kappa i)) [q] ].

End Circuit.
Import Circuit.

(* ================================================================== *)
(** ** Simulator backend

    The engine and its Fock backend are not part of the notebook.  They
    are modelled here from the operators the text names. *)

Module Backend.

(** Modelled from the spec: evaluation of the symbolic slice [v[i]] is the
    backend's; its value is entry [i] of the variable. *)
Definition lookup (p : GateParameterSet) (t : TensorRef) : R :=
  nth (ref_index t) (family p (ref_family t)) 0.

(** Modelled from the spec: the backend's rotation gate is missing from the
    sources; "phase rotation", [R(phi) = exp(i phi n)] with [n] the number
    operator: diagonal in the Fock basis. *)
Definition Rmat (theta : R) (m n : nat) : complex :=
  if (m =? n)%nat then Cexp_i (theta * INR n) else C0.

(** Modelled from the spec: the backend's Kerr gate is missing from the
    sources; "a non-linear Kerr-type phase operation of strength kappa",
    [K(kappa) = exp(i kappa n^2)]. *)
Definition Kmat (kappa : R) (m n : nat) : complex :=
  if (m =? n)%nat then Cexp_i (kappa * (INR n * INR n)) else C0.

(** Modelled from the spec: the backend's displacement gate is missing from
    the sources; "displacement by magnitude r and phase phi", the
    displacement operator [D(alpha)], [alpha = r e^{i phi}], in its normally
    ordered form [e^{-|alpha|^2/2} e^{alpha a+} e^{-conj(alpha) a}], whose
    Fock matrix elements are the finite sums below. *)
Definition Dmat (r phi : R) (m n : nat) : complex :=
  let alpha := Cscale r (Cexp_i phi) in
  Cscale (exp (- (r * r) / 2))
    (icsum (S (Nat.min m n))
       (fun k =>
          Cscale (sqrt (INR (fact m) * INR (fact n))
                  / (INR (fact k) * INR (fact (m - k)) * INR (fact (n - k))))
            (Cmul (Cpow alpha (m - k))
                  (Cpow (Cscale (-1) (Cconj alpha)) (n - k))))).

(** Modelled from the spec: the backend's squeeze gate is missing from the
    sources; "squeezing by magnitude r and phase phi", the squeeze operator
    in its disentangled form
    [e^{-(tau/2) a+^2} (cosh r)^{-(n + 1/2)} e^{(conj(tau)/2) a^2}],
    [tau = e^{i phi} tanh r], whose Fock matrix elements are the finite sums
    below. *)
Definition Smat (r phi : R) (m n : nat) : complex :=
  let tau := Cscale (tanh r) (Cexp_i phi) in
  let sech := / cosh r in
  icsum (S (Nat.min m n))
    (fun j =>
       if Nat.even (m - j) && Nat.even (n - j) then
         Cscale (sqrt (INR (fact m) * INR (fact n))
                 / (INR (fact j) * INR (fact ((m - j) / 2))
                    * INR (fact ((n - j) / 2)))
                 * (sqrt sech * sech ^ j))
           (Cmul (Cpow (Cscale (- / 2) tau) ((m - j) / 2))
                 (Cpow (Cscale (/ 2) (Cconj tau)) ((n - j) / 2)))
       else C0).

(** Modelled from the spec: a gate acts on a state truncated to [cutoff]
    Fock levels as its [cutoff x cutoff] matrix; what would leave the first
    [cutoff] levels is discarded. *)
Definition apply_matrix (cutoff : nat) (M : nat -> nat -> complex)
  (psi : vector) : vector :=
  map (fun m => icsum cutoff (fun n => Cmul (M m n) (nth n psi C0)))
      (seq 0 cutoff).

(** Modelled from the spec: the matrix of a gate command under the current
    values of the variables. *)
Definition gate_matrix (p : GateParameterSet) (o : Operation)
  : option (nat -> nat -> complex) :=
  match o with
  | Ket _ => None
  | Rgate t => Some (Rmat (lookup p t))
  | Sgate r phi => Some (Smat (lookup p r) (lookup p phi))
  | Dgate r phi => Some (Dmat (lookup p r) (lookup p phi))
  | Kgate k => Some (Kmat (lookup p k))
  end.

(** Modelled from the spec: the engine with [batch_size] is missing from the
    sources.  Its state is one truncated state per batch entry; [Ket]
    loads row [b] of its argument into entry [b]; a gate is applied to the
    whole batch at once. *)
Definition apply_op (cutoff : nat) (p : GateParameterSet) (o : Operation)
  (st : matrix) : matrix :=
  match o with
  | Ket k => k
  | _ =>
      match gate_matrix p o with
      | Some M => map (apply_matrix cutoff M) st
      | None => st
      end
  end.

(** Modelled from the spec: the engine starts every batch entry in the
    vacuum state [|0>] on [cutoff] levels. *)
Definition vacuum (cutoff : nat) : vector := set_nth O C1 (repeat C0 cutoff).

(** Modelled from the spec: [eng.run(prog).state.ket()], missing from the
    sources, runs the commands in program order on the batch, from the
    vacuum in every entry. *)
Definition exec (cutoff : nat) (p : GateParameterSet) (cmds : list Command)
  (st : matrix) : matrix :=
  fold_left (fun st c => apply_op cutoff p (cmd_op c) st) cmds st.

(** Modelled from the spec: the state after the whole program. *)
Definition run_engine (cutoff batch_size : nat) (prog : Program)
  (p : GateParameterSet) : matrix :=
  exec cutoff p prog (repeat (vacuum cutoff) batch_size).

(** Modelled from the spec: "for each of the basis states, apply
    [apply_layer(0..depth-1)] in sequence": layer [i] on one state, then the
    layers one after the other on one basis input. *)
Definition apply_layer (cutoff : nat) (p : GateParameterSet) (i : nat)
  (psi : vector) : vector :=
  let s1 := apply_matrix cutoff (Rmat (nth i (r1 p) 0)) psi in
  let s2 := apply_matrix cutoff (Smat (nth i (sq_r p) 0) (nth i (sq_phi p) 0)) s1 in
  let s3 := apply_matrix cutoff (Rmat (nth i (r2 p) 0)) s2 in
  let s4 := apply_matrix cutoff (Dmat (nth i (d_r p) 0) (nth i (d_phi p) 0)) s3 in
  apply_matrix cutoff (Kmat (nth i (kappa p) 0)) s4.

(** Modelled from the spec: the layers [ks], one after the other, on one
    state. *)
Fixpoint apply_layers (cutoff : nat) (p : GateParameterSet) (ks : list nat)
  (psi : vector) : vector :=
  match ks with
  | [] => psi
  | k :: rest => apply_layers cutoff p rest (apply_layer cutoff p k psi)
  end.

(** Modelled from the spec: the [depth] layers on one basis input. *)
Definition per_input (cutoff : nat) (p : GateParameterSet) (depth : nat)
  (input : vector) : vector :=
  apply_layers cutoff p (seq 0 depth) input.

End Backend.

(* ================================================================== *)
(** ** Cost evaluator (notebook cell 11) *)

Module Cost.

(** [overlaps = tf.real(tf.einsum('bi,bi->b', tf.conj(target_kets), ket))] *)
Definition overlaps (target_kets ket : matrix) : option (list R) :=
  option_map real1 (einsum_bi_bi_b (conj2 target_kets) ket).

(** [mean_overlap = tf.reduce_mean(overlaps)] *)
Definition mean_overlap (ov : list R) : R := mean ov.

(** [cost = tf.reduce_sum(tf.abs(overlaps - 1))] *)
Definition cost (ov : list R) : R :=
  reduce_sum (map (fun o => Rabs (o - 1)) ov).

(** The evaluator as the contract names it: the cost and the overlaps. *)
Definition evaluate (ket target_kets : matrix) : option (R * list R) :=
  option_map (fun ov => (cost ov, ov)) (overlaps target_kets ket).

(** The complex inner product [<t|o>] of two states of dimension [n],
    written entry by entry: conjugate-linear in the first argument. *)
Definition inner_product (n : nat) (t o : vector) : complex :=
  icsum n (fun j => Cmul (Cconj (nth j t C0)) (nth j o C0)).

End Cost.

(* ================================================================== *)
(** ** Optimisation driver (notebook cell 13) *)

Module Driver.

(** What one [session.run([min_cost, cost, overlaps, ket, params])] returns
    besides the update. *)
Record Fetch : Type := mkFetch {
  cost_val : R;
  overlaps_val : list R;
  ket_val : matrix;
  params_val : list (list R)
}.

(** The variables of the loop: the two history lists, what was printed,
    and the values bound by the last iteration (none before the first). *)
Record Progress : Type := mkProgress {
  cost_progress : list R;
  overlap_progress : list (list R);
  printed : list (Z * R * R);
  last_fetch : option Fetch
}.

Definition start : Progress :=
  {| cost_progress := []; overlap_progress := []; printed := [];
     last_fetch := None |}.

(** [range(n)] for a Python integer [n]: empty when [n <= 0]. *)
Definition range (n : Z) : list Z := map Z.of_nat (seq 0 (Z.to_nat n)).

Section Loop.

(** The TensorFlow session: the variables and the optimiser's slots. *)
Variable Session : Type.

(** One [session.run]: the updated session and the fetched values; [None]
    when the call raises. *)
Variable session_run : Session -> option (Session * Fetch).

(** The loop body at index [i]. *)
Definition body (i : Z) (st : Session * Progress)
  : option (Session * Progress) :=
  match session_run (fst st) with
  | None => None
  | Some (s', f) =>
      let mean_overlap_val := mean (overlaps_val f) in
      let pr := snd st in
      Some (s',
            {| cost_progress := cost_progress pr ++ [cost_val f];
               overlap_progress := overlap_progress pr ++ [overlaps_val f];
               printed :=
                 if (i mod 100 =? 0)%Z
                 then printed pr ++ [(i, cost_val f, mean_overlap_val)]
                 else printed pr;
               last_fetch := Some f |})
  end.

(** [for i in idx: body]: an exception leaves the loop. *)
Fixpoint for_loop (idx : list Z) (st : Session * Progress)
  : option (Session * Progress) :=
  match idx with
  | [] => Some st
  | i :: rest =>
      match body i st with
      | None => None
      | Some st' => for_loop rest st'
      end
  end.

(** Cell 13. *)
Definition optimise (reps : Z) (s0 : Session) : option (Session * Progress) :=
  for_loop (range reps) (s0, start).

(** The session before iteration [k], and what iteration [k] fetches. *)
Fixpoint session_at (k : nat) (s0 : Session) : option Session :=
  match k with
  | O => Some s0
  | S j =>
      match session_at j s0 with
      | None => None
      | Some s => option_map fst (session_run s)
      end
  end.

Definition fetch_at (k : nat) (s0 : Session) : option Fetch :=
  match session_at k s0 with
  | None => None
  | Some s => option_map snd (session_run s)
  end.

End Loop.

End Driver.

(* ================================================================== *)
(** ** Diagnostics (notebook cells 16, 18 and 19) *)

Module Diagnostics.

(** [learnt_unitary = ket_val.T[:gate_cutoff, :gate_cutoff]] *)
Definition learnt_unitary (ket_val : matrix) (gate_cutoff : nat) : matrix :=
  slice2 (transpose ket_val) gate_cutoff gate_cutoff.

(** [target_unitary = target_unitary[:gate_cutoff, :gate_cutoff]] *)
Definition target_block (target_unitary : matrix) (gate_cutoff : nat) : matrix :=
  slice2 target_unitary gate_cutoff gate_cutoff.

(** [phi = I.flatten()/np.sqrt(gate_cutoff)] with [I = np.identity(gate_cutoff)] *)
Definition phi (gate_cutoff : nat) : vector :=
  vdiv (flatten (identity gate_cutoff)) (sqrt (INR gate_cutoff)).

(** [psiX = np.kron(I, X) @ phi] *)
Definition psi (gate_cutoff : nat) (X : matrix) : option vector :=
  matvec (kron (identity gate_cutoff) X) (phi gate_cutoff).

(** [np.abs(np.vdot(psiV, psiU))**2] *)
Definition process_fidelity (gate_cutoff : nat) (V U : matrix) : option R :=
  match psi gate_cutoff V, psi gate_cutoff U with
  | Some psiV, Some psiU =>
      match vdot psiV psiU with
      | Some z => Some (Cabs z ^ 2)
      | None => None
      end
  | _, _ => None
  end.

(** Entry [(k, i)] of a matrix, and the squared Euclidean norm of a
    vector and of column [i] of a matrix with [rows] rows. *)
Definition entry (X : matrix) (k i : nat) : complex := nth i (nth k X []) C0.

Definition norm2 (v : vector) : R := reduce_sum (map Cnorm2 v).

Definition col_norm2 (X : matrix) (rows i : nat) : R :=
  isum rows (fun k => Cnorm2 (entry X k i)).

(** [X] is unitary on [g] levels: its columns are orthonormal. *)
Definition unitary (g : nat) (X : matrix) : Prop :=
  has_shape X g g /\
  forall i j, (i < g)%nat -> (j < g)%nat ->
    icsum g (fun k => Cmul (Cconj (entry X k i)) (entry X k j))
    = if (i =? j)%nat then C1 else C0.

(** The columns of [X], one after the other, each entry over [sqrt g]:
    the closed form of [psi g X]. *)
Definition stacked_columns (g : nat) (X : matrix) : vector :=
  flat_map
    (fun i => map (fun rowb => Cscale (/ sqrt (INR g)) (nth i rowb C0)) X)
    (seq 0 g).

(** Cell 20: [np.max(np.abs(params_val[1]))]; an index past the end of
    the list raises [IndexError]. *)
Definition max_squeezing (params_val : list (list R)) : option R :=
  match nth_error params_val 1 with
  | None => None
  | Some v => np_max (abs1 v)
  end.

(** A state multiplied by the phase [e^{i theta}]. *)
Definition phased (theta : R) (v : vector) : vector := map (Cmul (Cexp_i theta)) v.

End Diagnostics.

(* ================================================================== *)
(** ** The notebook from its hyperparameters to the end of the loop *)

Module Notebook.

(** Cell 1.  The three dimensions are array sizes; [reps] is the argument
    of [range]. *)
Record Config : Type := mkConfig {
  cutoff : nat;
  gate_cutoff : nat;
  depth : nat;
  reps : Z;
  passive_sd : R;
  active_sd : R
}.

(** Modelled from the spec: the configuration surface, "cutoff (integer >=
    gate_cutoff), gate_cutoff (integer >= 1), depth (integer >= 1), reps
    (integer >= 0), passive_sd, active_sd (positive reals)". *)
Definition valid_config (c : Config) : Prop :=
  (gate_cutoff c <= cutoff c)%nat /\ (1 <= gate_cutoff c)%nat /\
  (1 <= depth c)%nat /\ (0 <= reps c)%Z /\
  0 < passive_sd c /\ 0 < active_sd c.

(** Where a run can raise before the loop, and the two ways it ends. *)
Inductive Stage : Type := AtCircuit | AtTarget | AtTargetKets | AtOptimiser.

Inductive Outcome : Type :=
  | Failed (before_loop : Stage)
  | FailedInLoop
  | Completed (final : GateParameterSet) (history : Driver.Progress).

(** Cell 12, [optimiser.minimize(cost)]: TensorFlow raises [ValueError]
    (no gradients provided for any variable) when the cost depends on no
    variable, that is when the program holds no gate; [true] when the update
    op is built. *)
Definition uses_variable (o : Operation) : bool :=
  match o with
  | Ket _ => false
  | Rgate _ | Sgate _ _ | Dgate _ _ | Kgate _ => true
  end.

Definition minimize (prog : Program) : bool :=
  existsb (fun cmd => uses_variable (cmd_op cmd)) prog.

Section Run.

(** The variates of the seven random ops, the external generator of
    random unitaries, and the optimiser: its slots and the update that
    [min_cost] applies for a given program and target. *)
Variable draws : Family -> nat -> R.
Variable random_interferometer : nat -> matrix.
Variable Slots : Type.
Variable slots0 : Slots.
Variable min_cost : Program -> matrix ->
                    GateParameterSet * Slots -> GateParameterSet * Slots.

(** Cell 7. *)
Definition in_ket (c : Config) : matrix :=
  fill_diagonal (zeros (gate_cutoff c) (cutoff c)) C1.

(** Cell 10. *)
Definition target_unitary (c : Config) : option matrix :=
  setitem_block (identity (cutoff c)) (gate_cutoff c) (random_interferometer 4).

(** Cell 11, [target_kets]. *)
Definition target_kets (c : Config) (target : matrix) : option matrix :=
  columns target (arange (gate_cutoff c)).

(** One [session.run] of the graph: the cost, the overlaps and the ket
    are the tensors of the forward pass, computed from the variables the
    iteration starts from; the fetched variables are read after the
    update.  The values are real numbers: the float32 arithmetic of the
    graph, with its rounding, overflow and NaN, is not part of the model,
    so what is proved of a recorded value is proved of the exact one. *)
Definition session_run (c : Config) (prog : Program) (tk : matrix)
  (s : GateParameterSet * Slots)
  : option ((GateParameterSet * Slots) * Driver.Fetch) :=
  let ket := Backend.run_engine (cutoff c) (gate_cutoff c) prog (fst s) in
  match Cost.evaluate ket tk with
  | None => None
  | Some (cost, ov) =>
      let s' := min_cost prog tk s in
      Some (s',
            {| Driver.cost_val := cost; Driver.overlaps_val := ov;
               Driver.ket_val := ket; Driver.params_val := params (fst s') |})
  end.

(** Cells 1 to 13 in order. *)
Definition run (c : Config) : Outcome :=
  let p0 := initialize draws (depth c) (passive_sd c) (active_sd c) in
  match Circuit.build (depth c) (in_ket c) with
  | None => Failed AtCircuit
  | Some prog =>
      match target_unitary c with
      | None => Failed AtTarget
      | Some target =>
          match target_kets c target with
          | None => Failed AtTargetKets
          | Some tk =>
              if minimize prog then
                match Driver.optimise _ (session_run c prog tk) (reps c)
                        (p0, slots0) with
                | None => FailedInLoop
                | Some (s, pr) => Completed (fst s) pr
                end
              else Failed AtOptimiser
          end
      end
  end.

End Run.

End Notebook.

(* ================================================================== *)
(** * Properties *)

(** ** Complex arithmetic *)

Lemma complex_eq (a b : complex) : Re a = Re b -> Im a = Im b -> a = b.
Proof. destruct a, b; simpl; intros -> ->; reflexivity. Qed.

Ltac csplit := apply complex_eq; simpl.
Ltac csimp := csplit; ring.

Lemma Cadd_0_l z : Cadd C0 z = z.
Proof. csimp. Qed.

Lemma Cadd_0_r z : Cadd z C0 = z.
Proof. csimp. Qed.

Lemma Cadd_comm a b : Cadd a b = Cadd b a.
Proof. csimp. Qed.

Lemma Cadd_assoc a b c : Cadd a (Cadd b c) = Cadd (Cadd a b) c.
Proof. csimp. Qed.

Lemma Cmul_0_l z : Cmul C0 z = C0.
Proof. csimp. Qed.

Lemma Cmul_0_r z : Cmul z C0 = C0.
Proof. csimp. Qed.

Lemma Cmul_1_l z : Cmul C1 z = z.
Proof. csimp. Qed.


Lemma Cmul_comm a b : Cmul a b = Cmul b a.
Proof. csimp. Qed.

Lemma Cmul_assoc a b c : Cmul a (Cmul b c) = Cmul (Cmul a b) c.
Proof. csimp. Qed.

Lemma Cmul_add_distr_l a b c : Cmul a (Cadd b c) = Cadd (Cmul a b) (Cmul a c).
Proof. csimp. Qed.

Lemma Cmul_add_distr_r a b c : Cmul (Cadd a b) c = Cadd (Cmul a c) (Cmul b c).
Proof. csimp. Qed.

Lemma Cconj_C0 : Cconj C0 = C0.
Proof. csimp. Qed.

Lemma Cconj_add a b : Cconj (Cadd a b) = Cadd (Cconj a) (Cconj b).
Proof. csimp. Qed.

Lemma Cconj_mul a b : Cconj (Cmul a b) = Cmul (Cconj a) (Cconj b).
Proof. csimp. Qed.

Lemma Cscale_0_r x : Cscale x C0 = C0.
Proof. csimp. Qed.

Lemma Cscale_0_l z : Cscale 0 z = C0.
Proof. csimp. Qed.

Lemma Cscale_1_l z : Cscale 1 z = z.
Proof. csimp. Qed.

Lemma Cscale_mul x z : Cscale x z = Cmul (RtoC x) z.
Proof. csimp. Qed.

Lemma Cscale_add x a b : Cscale x (Cadd a b) = Cadd (Cscale x a) (Cscale x b).
Proof. csimp. Qed.

Lemma Cexp_i_0 : Cexp_i 0 = C1.
Proof. unfold Cexp_i. rewrite cos_0, sin_0. reflexivity. Qed.

Lemma Cnorm2_nonneg z : 0 <= Cnorm2 z.
Proof. unfold Cnorm2. nra. Qed.


Lemma Cnorm2_mul a b : Cnorm2 (Cmul a b) = Cnorm2 a * Cnorm2 b.
Proof. unfold Cnorm2. simpl. ring. Qed.

Lemma Cnorm2_conj a : Cnorm2 (Cconj a) = Cnorm2 a.
Proof. unfold Cnorm2. simpl. ring. Qed.

Lemma Cnorm2_scale x a : Cnorm2 (Cscale x a) = x * x * Cnorm2 a.
Proof. unfold Cnorm2. simpl. ring. Qed.

Lemma Cnorm2_Cexp_i t : Cnorm2 (Cexp_i t) = 1.
Proof.
  unfold Cnorm2, Cexp_i. simpl.
  pose proof (sin2_cos2 t) as H. unfold Rsqr in H. lra.
Qed.

Lemma Cabs_sqr z : Cabs z ^ 2 = Cnorm2 z.
Proof.
  unfold Cabs. simpl. rewrite Rmult_1_r.
  apply sqrt_sqrt, Cnorm2_nonneg.
Qed.

Lemma Cpow_0_pos n : (0 < n)%nat -> Cpow C0 n = C0.
Proof. destruct n; [lia | intros _; simpl; apply Cmul_0_l]. Qed.

(** ** Indexed sums and sums of lists *)

Lemma isum_ext n f g : (forall i, (i < n)%nat -> f i = g i) -> isum n f = isum n g.
Proof.
  induction n as [|n IH]; intros H; simpl; [reflexivity|].
  rewrite IH, H by (intros; try apply H; lia). reflexivity.
Qed.

Lemma icsum_ext n f g :
  (forall i, (i < n)%nat -> f i = g i) -> icsum n f = icsum n g.
Proof.
  induction n as [|n IH]; intros H; simpl; [reflexivity|].
  rewrite IH, H by (intros; try apply H; lia). reflexivity.
Qed.

Lemma isum_shift n f : isum (S n) f = f O + isum n (fun i => f (S i)).
Proof.
  induction n as [|n IH].
  - simpl. ring.
  - change (isum (S (S n)) f) with (isum (S n) f + f (S n)).
    rewrite IH. simpl. ring.
Qed.

Lemma icsum_shift n f : icsum (S n) f = Cadd (f O) (icsum n (fun i => f (S i))).
Proof.
  induction n as [|n IH].
  - simpl. csimp.
  - change (icsum (S (S n)) f) with (Cadd (icsum (S n) f) (f (S n))).
    rewrite IH. simpl. csimp.
Qed.

Lemma isum_nonneg n f : (forall i, (i < n)%nat -> 0 <= f i) -> 0 <= isum n f.
Proof.
  induction n as [|n IH]; intros H; simpl; [lra|].
  assert (0 <= isum n f) by (apply IH; intros; apply H; lia).
  assert (0 <= f n) by (apply H; lia). lra.
Qed.

Lemma isum_le n f g :
  (forall i, (i < n)%nat -> f i <= g i) -> isum n f <= isum n g.
Proof.
  induction n as [|n IH]; intros H; simpl; [lra|].
  assert (isum n f <= isum n g) by (apply IH; intros; apply H; lia).
  assert (f n <= g n) by (apply H; lia). lra.
Qed.

Lemma isum_const_0 n : isum n (fun _ => 0) = 0.
Proof. induction n; simpl; lra. Qed.

Lemma icsum_const_0 n : icsum n (fun _ => C0) = C0.
Proof. induction n as [|n IH]; simpl; [reflexivity|]. rewrite IH. csimp. Qed.

Lemma reduce_sum_isum (l : list R) :
  reduce_sum l = isum (length l) (fun i => nth i l 0).
Proof.
  induction l as [|x l IH]; [reflexivity|].
  cbn [length]. rewrite isum_shift. simpl. rewrite IH. reflexivity.
Qed.

Lemma reduce_sum_map_isum {A : Type} (f : A -> R) (d : A) (l : list A) :
  reduce_sum (map f l) = isum (length l) (fun i => f (nth i l d)).
Proof.
  induction l as [|x l IH]; [reflexivity|].
  cbn [length]. rewrite isum_shift. simpl. rewrite IH. reflexivity.
Qed.

Lemma Csum_zip_mul_icsum (a b : vector) n :
  length a = n -> length b = n ->
  Csum (zip_mul a b) = icsum n (fun j => Cmul (nth j a C0) (nth j b C0)).
Proof.
  revert b n. induction a as [|x a IH]; intros b n Ha Hb.
  - simpl in Ha. subst n. reflexivity.
  - destruct b as [|y b]; simpl in Ha, Hb; [subst n; discriminate|].
    subst n. rewrite icsum_shift. simpl.
    rewrite (IH b (length a)) by (try reflexivity; lia). reflexivity.
Qed.

Lemma nth_map_conj (t : vector) j : nth j (map Cconj t) C0 = Cconj (nth j t C0).
Proof.
  rewrite <- Cconj_C0 at 1. apply map_nth.
Qed.

(** ** Shapes *)

Lemma has_shape_nth {A : Type} (m : list (list A)) rows cols i :
  has_shape m rows cols -> (i < rows)%nat -> length (nth i m []) = cols.
Proof.
  intros [Hl Hf] Hi. rewrite Forall_forall in Hf.
  apply Hf, nth_In. lia.
Qed.

Lemma has_shape_cons {A : Type} (r : list A) m rows cols :
  has_shape (r :: m) (S rows) cols <-> length r = cols /\ has_shape m rows cols.
Proof.
  unfold has_shape. simpl. split.
  - intros [Hl Hf]. inversion Hf; subst. repeat split; auto.
  - intros [Hr [Hl Hf]]. split; [lia | constructor; assumption].
Qed.

Lemma has_shape_conj2 a rows cols :
  has_shape a rows cols -> has_shape (conj2 a) rows cols.
Proof.
  intros [Hl Hf]. unfold conj2. split.
  - rewrite length_map. exact Hl.
  - rewrite Forall_map. eapply Forall_impl; [|exact Hf].
    simpl. intros r Hr. rewrite length_map. exact Hr.
Qed.

Lemma same_shape_of_shapes a b rows cols :
  has_shape a rows cols -> has_shape b rows cols -> same_shape a b = true.
Proof.
  revert b rows. induction a as [|ra a IH]; intros b rows Ha Hb.
  - destruct Ha as [Ha _]. simpl in Ha. subst rows.
    destruct Hb as [Hb _]. destruct b; [reflexivity | discriminate].
  - destruct rows as [|rows]; [destruct Ha; discriminate|].
    destruct b as [|rb b]; [destruct Hb; discriminate|].
    apply has_shape_cons in Ha, Hb. destruct Ha as [Hra Ha], Hb as [Hrb Hb].
    simpl. rewrite (IH b rows Ha Hb), Hra, Hrb, Nat.eqb_refl. reflexivity.
Qed.

Lemma einsum_rows_length a b :
  length a = length b -> length (einsum_rows a b) = length a.
Proof.
  revert b. induction a as [|ra a IH]; intros [|rb b] H; simpl in *;
    try discriminate; auto.
Qed.

Lemma einsum_rows_nth a b i :
  length a = length b -> (i < length a)%nat ->
  nth i (einsum_rows a b) C0 = Csum (zip_mul (nth i a []) (nth i b [])).
Proof.
  revert b i. induction a as [|ra a IH]; intros [|rb b] i H Hi; simpl in *;
    try discriminate; try lia.
  destruct i as [|i]; [reflexivity|]. apply IH; lia.
Qed.

(** ** Cost evaluator *)

(** C1. For a batch of [gate_cutoff] output states and a batch of
    [gate_cutoff] target states, all of dimension [cutoff], the evaluator
    returns a cost and an overlaps vector of length [gate_cutoff]; entry [i]
    of the overlaps is the real part of the inner product of
    [target_batch[i]] (conjugated) with [output_batch[i]], and the cost is
    the sum over [i] of [|overlaps[i] - 1|]. *)
Theorem evaluate_overlaps_and_cost (gate_cutoff cutoff : nat)
  (output_batch target_batch : matrix) :
  has_shape output_batch gate_cutoff cutoff ->
  has_shape target_batch gate_cutoff cutoff ->
  exists (cost : R) (ov : list R),
    Cost.evaluate output_batch target_batch = Some (cost, ov) /\
    length ov = gate_cutoff /\
    (forall i, (i < gate_cutoff)%nat ->
       nth i ov 0 =
       Re (Cost.inner_product cutoff (nth i target_batch []) (nth i output_batch []))) /\
    cost = isum gate_cutoff (fun i => Rabs (nth i ov 0 - 1)).
Proof.
  intros Hout Htgt.
  pose proof (has_shape_conj2 _ _ _ Htgt) as Hc.
  unfold Cost.evaluate, Cost.overlaps, einsum_bi_bi_b.
  rewrite (same_shape_of_shapes _ _ _ _ Hc Hout). simpl.
  assert (Hlen : length (conj2 target_batch) = length output_batch).
  { destruct Hc as [-> _], Hout as [-> _]. reflexivity. }
  assert (Hg : length (conj2 target_batch) = gate_cutoff) by apply Hc.
  eexists _, _. split; [reflexivity|]. split; [|split].
  - unfold real1. rewrite length_map, einsum_rows_length; assumption.
  - intros i Hi. unfold real1.
    change 0 with (Re C0). rewrite map_nth.
    rewrite einsum_rows_nth by lia.
    rewrite (Csum_zip_mul_icsum _ _ cutoff).
    + unfold Cost.inner_product. f_equal. apply icsum_ext. intros j _.
      unfold conj2. change (@nil complex) with (map Cconj []) at 1.
      rewrite map_nth, nth_map_conj. reflexivity.
    + apply (has_shape_nth _ gate_cutoff); assumption.
    + apply (has_shape_nth _ gate_cutoff); assumption.
  - unfold Cost.cost.
    rewrite (reduce_sum_map_isum _ 0).
    unfold real1. rewrite length_map, einsum_rows_length by assumption.
    rewrite Hg. reflexivity.
Qed.

Lemma evaluate_overlaps_and_cost_witness :
  exists (cost : R) (ov : list R),
    Cost.evaluate [[C1; C0]; [C0; C1]] [[C1; C0]; [C0; C1]] = Some (cost, ov) /\
    length ov = 2%nat /\
    (forall i, (i < 2)%nat ->
       nth i ov 0 =
       Re (Cost.inner_product 2 (nth i [[C1; C0]; [C0; C1]] [])
                                (nth i [[C1; C0]; [C0; C1]] []))) /\
    cost = isum 2 (fun i => Rabs (nth i ov 0 - 1)).
Proof.
  apply (evaluate_overlaps_and_cost 2 2);
    (split; [reflexivity | repeat constructor]).
Defined.

Lemma reduce_sum_nonneg l : Forall (fun x => 0 <= x) l -> 0 <= reduce_sum l.
Proof.
  induction 1 as [|x l Hx _ IH]; simpl; lra.
Qed.

Lemma reduce_sum_zero l :
  Forall (fun x => 0 <= x) l -> reduce_sum l = 0 -> Forall (fun x => x = 0) l.
Proof.
  induction 1 as [|x l Hx Hl IH]; simpl; intros H0; constructor.
  - pose proof (reduce_sum_nonneg l Hl). lra.
  - apply IH. pose proof (reduce_sum_nonneg l Hl). lra.
Qed.

(** C4. For every overlaps vector the cost is at least [0], and it is [0]
    exactly when every entry of the overlaps is [1]. *)
Theorem cost_lower_bound (ov : list R) :
  0 <= Cost.cost ov /\
  (Cost.cost ov = 0 <-> Forall (fun o => o = 1) ov).
Proof.
  unfold Cost.cost.
  assert (Hnn : Forall (fun x => 0 <= x) (map (fun o => Rabs (o - 1)) ov)).
  { rewrite Forall_map. apply Forall_forall. intros o _. apply Rabs_pos. }
  split; [apply reduce_sum_nonneg, Hnn|]. split.
  - intros H0. pose proof (reduce_sum_zero _ Hnn H0) as Hz.
    rewrite Forall_map in Hz. eapply Forall_impl; [|exact Hz].
    simpl. intros o Ho.
    destruct (Req_dec (o - 1) 0) as [E|E]; [lra|].
    apply Rabs_no_R0 in E. contradiction.
  - clear Hnn. induction 1 as [|o l Ho _ IH]; simpl; [reflexivity|].
    rewrite IH. subst o. replace (1 - 1) with 0 by ring. rewrite Rabs_R0. ring.
Qed.

(** ** Parameter store *)

Lemma random_normal_length variate n mean stddev :
  length (random_normal variate n mean stddev) = n.
Proof. unfold random_normal. rewrite length_map, length_seq. reflexivity. Qed.

Lemma random_normal_nth variate n mean stddev k :
  (k < n)%nat ->
  nth k (random_normal variate n mean stddev) 0 = variate k * stddev + mean.
Proof.
  intros Hk. unfold random_normal.
  rewrite (nth_indep _ 0 ((fun j => variate j * stddev + mean) O))
    by (rewrite length_map, length_seq; exact Hk).
  rewrite (map_nth (fun j => variate j * stddev + mean)).
  rewrite seq_nth by exact Hk. reflexivity.
Qed.

(** The deterministic part of cell 3: every family is a sequence of length
    [depth]; entry [k] of a passive family ([r1], [r2], [sq_phi], [d_phi])
    is the mean [0] plus [passive_sd] times the generator's variate [draws f
    k], entry [k] of an active family ([sq_r], [d_r], [kappa]) is [0] plus
    [active_sd] times it.  The law of the variates, and their independence,
    belong to the generator and are not expressed here. *)
Lemma initialize_draws (draws : Family -> nat -> R) (depth : nat)
  (passive_sd active_sd : R) (f : Family) :
  let p := initialize draws depth passive_sd active_sd in
  let sd := if passive f then passive_sd else active_sd in
  length (family p f) = depth /\
  forall k, (k < depth)%nat -> nth k (family p f) 0 = 0 + sd * draws f k.
Proof.
  destruct f; simpl; (split; [apply random_normal_length|]);
    intros k Hk; rewrite random_normal_nth by exact Hk; ring.
Qed.

(** ** Layer function *)

Lemma getitem_in_range depth f i p :
  (i < depth)%nat -> getitem depth f i p = Some (mkRef f i, p).
Proof.
  intros Hi. unfold getitem.
  destruct (Nat.ltb_spec i depth); [reflexivity | lia].
Qed.

Lemma layer_in_range depth i q prog :
  (i < depth)%nat ->
  layer depth i q prog = Some (q, prog ++ layer_commands i q).
Proof.
  intros Hi. unfold layer, bind.
  repeat (rewrite (getitem_in_range depth _ i) by exact Hi; cbn [pipe ret]).
  repeat rewrite <- app_assoc. reflexivity.
Qed.

(** C2. For a layer index [i] within the variables' shape, [layer(i, q)]
    appends to the program exactly five commands on [q], in this order:
    rotation by [r1[i]], squeeze by [sq_r[i]] and [sq_phi[i]], rotation
    by [r2[i]], displacement by [d_r[i]] and [d_phi[i]], Kerr by [kappa[i]];
    what the program held before is kept, and [q] is returned. *)
Theorem layer_five_operations (depth i q : nat) (prog : Program) :
  (i < depth)%nat ->
  layer depth i q prog =
  Some (q, prog ++
           [ mkCommand (Rgate (mkRef F_r1 i)) [q];
             mkCommand (Sgate (mkRef F_sq_r i) (mkRef F_sq_phi i)) [q];
             mkCommand (Rgate (mkRef F_r2 i)) [q];
             mkCommand (Dgate (mkRef F_d_r i) (mkRef F_d_phi i)) [q];
             mkCommand (Kgate (mkRef F_kappa i)) [q] ]).
Proof.
  intros Hi. rewrite layer_in_range by exact Hi. reflexivity.
Qed.

Lemma layer_five_operations_witness :
  layer 25 3 0 [] =
  Some (0%nat,
        [ mkCommand (Rgate (mkRef F_r1 3)) [0%nat];
          mkCommand (Sgate (mkRef F_sq_r 3) (mkRef F_sq_phi 3)) [0%nat];
          mkCommand (Rgate (mkRef F_r2 3)) [0%nat];
          mkCommand (Dgate (mkRef F_d_r 3) (mkRef F_d_phi 3)) [0%nat];
          mkCommand (Kgate (mkRef F_kappa 3)) [0%nat] ]).
Proof.
  apply (layer_five_operations 25 3 0 []). lia.
Defined.

(** ** Optimisation driver *)

Section DriverFacts.

Import Driver.

Variable Session : Type.
Variable session_run : Session -> option (Session * Fetch).

Hypothesis session_run_returns : forall s, session_run s <> None.

Lemma session_at_step k s s1 f :
  session_run s = Some (s1, f) ->
  session_at Session session_run (S k) s = session_at Session session_run k s1.
Proof.
  intros Hrun. induction k as [|k IH].
  - simpl. rewrite Hrun. reflexivity.
  - change (session_at Session session_run (S (S k)) s)
      with (match session_at Session session_run (S k) s with
            | None => None
            | Some s' => option_map fst (session_run s')
            end).
    rewrite IH. reflexivity.
Qed.

Lemma fetch_at_step k s s1 f :
  session_run s = Some (s1, f) ->
  fetch_at Session session_run (S k) s = fetch_at Session session_run k s1.
Proof.
  intros Hrun. unfold fetch_at.
  rewrite (session_at_step k s s1 f Hrun). reflexivity.
Qed.

Lemma for_loop_app a b st :
  for_loop Session session_run (a ++ b) st =
  match for_loop Session session_run a st with
  | None => None
  | Some st' => for_loop Session session_run b st'
  end.
Proof.
  revert st. induction a as [|i a IH]; intros st; simpl; [reflexivity|].
  destruct (body Session session_run i st); [apply IH | reflexivity].
Qed.

(** The loop invariant: one [session.run] and one entry appended to each
    history list per index, whatever was fetched. *)
Lemma for_loop_history idx s pr :
  exists s' pr' fs,
    for_loop Session session_run idx (s, pr) = Some (s', pr') /\
    length fs = length idx /\
    session_at Session session_run (length idx) s = Some s' /\
    cost_progress pr' = cost_progress pr ++ map cost_val fs /\
    overlap_progress pr' = overlap_progress pr ++ map overlaps_val fs /\
    (forall k, (k < length idx)%nat ->
       fetch_at Session session_run k s = nth_error fs k).
Proof.
  revert s pr. induction idx as [|i idx IH]; intros s pr.
  - exists s, pr, []. simpl. repeat rewrite app_nil_r.
    repeat split; try reflexivity. intros k Hk. lia.
  - destruct (session_run s) as [[s1 f]|] eqn:Hrun;
      [|exfalso; exact (session_run_returns s Hrun)].
    cbn [for_loop]. unfold body at 1. cbn [fst snd]. rewrite Hrun.
    match goal with
    | |- context [for_loop _ _ idx (s1, ?p)] =>
        destruct (IH s1 p) as (s' & pr' & fs & Hl & Hlen & Hs & Hc & Ho & Hf)
    end.
    exists s', pr', (f :: fs). cbn [length].
    split; [exact Hl|]. split; [congruence|].
    split; [rewrite (session_at_step _ s s1 f Hrun); exact Hs|].
    cbn [cost_progress overlap_progress] in Hc, Ho.
    split; [rewrite Hc, <- app_assoc; reflexivity|].
    split; [rewrite Ho, <- app_assoc; reflexivity|].
    intros [|k] Hk.
    + unfold fetch_at. simpl. rewrite Hrun. reflexivity.
    + rewrite (fetch_at_step _ s s1 f Hrun). simpl. apply Hf. lia.
Qed.

End DriverFacts.

Lemma range_length (n : Z) : length (Driver.range n) = Z.to_nat n.
Proof. unfold Driver.range. rewrite length_map, length_seq. reflexivity. Qed.

Lemma range_increasing (n : Z) (k : nat) :
  (k < Z.to_nat n)%nat -> nth k (Driver.range n) 0%Z = Z.of_nat k.
Proof.
  intros Hk. unfold Driver.range.
  change 0%Z with (Z.of_nat 0). rewrite map_nth, seq_nth by exact Hk.
  reflexivity.
Qed.

(** C5. For [reps >= 0] and a [session.run] that returns, whatever it
    fetches: the loop ends normally after exactly [reps] iterations (the
    session is the one reached by [reps] successive runs, the loop index
    takes the values [0, 1, ...] in order), and the two history lists hold
    [reps] entries, entry [k] being what iteration [k] fetched; after the
    first [k] iterations they hold exactly [k] entries, the first [k] of
    the final lists. *)
Theorem optimise_history (Session : Type)
  (session_run : Session -> option (Session * Driver.Fetch))
  (reps : Z) (s0 : Session) :
  (0 <= reps)%Z ->
  (forall s, session_run s <> None) ->
  exists s pr fs,
    Driver.optimise Session session_run reps s0 = Some (s, pr) /\
    Z.of_nat (length fs) = reps /\
    Driver.session_at Session session_run (Z.to_nat reps) s0 = Some s /\
    Driver.cost_progress pr = map Driver.cost_val fs /\
    Driver.overlap_progress pr = map Driver.overlaps_val fs /\
    Z.of_nat (length (Driver.cost_progress pr)) = reps /\
    Z.of_nat (length (Driver.overlap_progress pr)) = reps /\
    (forall k, (k < length fs)%nat ->
       nth k (Driver.range reps) 0%Z = Z.of_nat k /\
       Driver.fetch_at Session session_run k s0 = nth_error fs k) /\
    (forall k, (k <= Z.to_nat reps)%nat ->
       exists sk prk,
         Driver.for_loop Session session_run (firstn k (Driver.range reps))
           (s0, Driver.start) = Some (sk, prk) /\
         length (Driver.cost_progress prk) = k /\
         length (Driver.overlap_progress prk) = k /\
         Driver.cost_progress prk = firstn k (Driver.cost_progress pr) /\
         Driver.overlap_progress prk = firstn k (Driver.overlap_progress pr)).
Proof.
  intros Hreps Hret. unfold Driver.optimise.
  destruct (for_loop_history Session session_run Hret (Driver.range reps) s0
              Driver.start)
    as (s & pr & fs & Hl & Hlen & Hs & Hc & Ho & Hf).
  rewrite range_length in Hlen, Hs, Hf. simpl in Hc, Ho.
  exists s, pr, fs. split; [exact Hl|].
  split; [rewrite Hlen; lia|]. split; [exact Hs|].
  split; [exact Hc|]. split; [exact Ho|].
  split; [rewrite Hc, length_map, Hlen; lia|].
  split; [rewrite Ho, length_map, Hlen; lia|].
  split.
  - intros k Hk. split; [apply range_increasing; lia | apply Hf; lia].
  - intros k Hk.
    destruct (for_loop_history Session session_run Hret
                (firstn k (Driver.range reps)) s0 Driver.start)
      as (sk & prk & fk & Hlk & Hlenk & _ & Hck & Hok & _).
    simpl in Hck, Hok.
    assert (Hk' : length fk = k).
    { rewrite Hlenk, length_firstn, range_length. lia. }
    destruct (for_loop_history Session session_run Hret
                (skipn k (Driver.range reps)) sk prk)
      as (s2 & pr2 & f2 & Hl2 & _ & _ & Hc2 & Ho2 & _).
    assert (Heq : Some (s2, pr2) = Some (s, pr)).
    { rewrite <- Hl2, <- Hl.
      rewrite <- (firstn_skipn k (Driver.range reps)) at 2.
      rewrite for_loop_app, Hlk. reflexivity. }
    injection Heq as -> ->.
    exists sk, prk. split; [exact Hlk|].
    split; [rewrite Hck, length_map; exact Hk'|].
    split; [rewrite Hok, length_map; exact Hk'|].
    split.
    + rewrite Hc2. rewrite firstn_app.
      replace (k - length (Driver.cost_progress prk))%nat with O
        by (rewrite Hck, length_map; lia).
      rewrite firstn_all2 by (rewrite Hck, length_map; lia).
      simpl. rewrite app_nil_r. reflexivity.
    + rewrite Ho2. rewrite firstn_app.
      replace (k - length (Driver.overlap_progress prk))%nat with O
        by (rewrite Hok, length_map; lia).
      rewrite firstn_all2 by (rewrite Hok, length_map; lia).
      simpl. rewrite app_nil_r. reflexivity.
Qed.

Lemma optimise_history_witness :
  exists s pr,
    Driver.optimise nat (fun s => Some (S s, Driver.mkFetch (INR s) [] [] []))
      3 0%nat = Some (s, pr) /\
    Z.of_nat (length (Driver.cost_progress pr)) = 3%Z /\
    Z.of_nat (length (Driver.overlap_progress pr)) = 3%Z.
Proof.
  destruct (optimise_history nat
              (fun s => Some (S s, Driver.mkFetch (INR s) [] [] [])) 3 0%nat)
    as (s & pr & fs & H1 & _ & _ & _ & _ & H2 & H3 & _).
  - lia.
  - intros s H. discriminate H.
  - exists s, pr. repeat split; assumption.
Defined.

(** ** Backend: gates at their identity values *)

Lemma icsum_delta c m (f : nat -> complex) :
  (m < c)%nat ->
  icsum c (fun n => Cmul (if (m =? n)%nat then C1 else C0) (f n)) = f m.
Proof.
  induction c as [|c IH]; intros Hm; [lia|]. simpl.
  destruct (Nat.eqb_spec m c) as [->|Hne].
  - rewrite Cmul_1_l.
    rewrite (icsum_ext c _ (fun _ => C0)).
    + rewrite icsum_const_0. apply Cadd_0_l.
    + intros i Hi. destruct (Nat.eqb_spec c i); [lia | apply Cmul_0_l].
  - rewrite IH by lia. rewrite Cmul_0_l. apply Cadd_0_r.
Qed.

Lemma map_nth_seq (psi : vector) :
  map (fun m => nth m psi C0) (seq 0 (length psi)) = psi.
Proof.
  apply (nth_ext _ _ C0 C0).
  - rewrite length_map, length_seq. reflexivity.
  - intros k Hk. rewrite length_map, length_seq in Hk.
    rewrite (nth_indep _ C0 ((fun m => nth m psi C0) O))
      by (rewrite length_map, length_seq; exact Hk).
    rewrite (map_nth (fun m => nth m psi C0)), seq_nth by exact Hk.
    reflexivity.
Qed.

(** A matrix that is the identity below [cutoff] leaves a state of
    dimension [cutoff] as it is. *)
Lemma apply_matrix_identity cutoff M psi :
  (forall m n, (m < cutoff)%nat -> (n < cutoff)%nat ->
     M m n = if (m =? n)%nat then C1 else C0) ->
  length psi = cutoff ->
  Backend.apply_matrix cutoff M psi = psi.
Proof.
  intros HM Hlen. unfold Backend.apply_matrix.
  transitivity (map (fun m => nth m psi C0) (seq 0 (length psi)));
    [|apply map_nth_seq].
  rewrite Hlen. apply map_ext_in. intros m Hm. apply in_seq in Hm.
  rewrite (icsum_ext cutoff _
             (fun n => Cmul (if (m =? n)%nat then C1 else C0) (nth n psi C0))).
  - apply icsum_delta. lia.
  - intros n Hn. rewrite HM by lia. reflexivity.
Qed.

Lemma Rmat_zero m n : Backend.Rmat 0 m n = if (m =? n)%nat then C1 else C0.
Proof.
  unfold Backend.Rmat. destruct (m =? n)%nat; [|reflexivity].
  rewrite Rmult_0_l. apply Cexp_i_0.
Qed.

Lemma Kmat_zero m n : Backend.Kmat 0 m n = if (m =? n)%nat then C1 else C0.
Proof.
  unfold Backend.Kmat. destruct (m =? n)%nat; [|reflexivity].
  rewrite Rmult_0_l. apply Cexp_i_0.
Qed.

Lemma sqrt_fact_square m : sqrt (INR (fact m) * INR (fact m)) = INR (fact m).
Proof. apply sqrt_square, pos_INR. Qed.

(** A sum whose terms vanish except, when [m = n], the last one. *)
Lemma icsum_last_only m n (f : nat -> complex) :
  (forall k, (k <= Nat.min m n)%nat -> (k < m \/ k < n)%nat -> f k = C0) ->
  icsum (S (Nat.min m n)) f = if (m =? n)%nat then f m else C0.
Proof.
  intros Hz. simpl.
  rewrite (icsum_ext _ _ (fun _ => C0)).
  - rewrite icsum_const_0, Cadd_0_l.
    destruct (Nat.eqb_spec m n) as [->|Hne].
    + rewrite Nat.min_id. reflexivity.
    + apply Hz; lia.
  - intros k Hk. apply Hz; lia.
Qed.

Lemma Dmat_zero phi m n :
  Backend.Dmat 0 phi m n = if (m =? n)%nat then C1 else C0.
Proof.
  unfold Backend.Dmat.
  replace (Cscale 0 (Cexp_i phi)) with C0 by (symmetry; apply Cscale_0_l).
  replace (Cscale (-1) (Cconj C0)) with C0 by csimp.
  replace (- (0 * 0) / 2) with 0 by field. rewrite exp_0, Cscale_1_l.
  rewrite icsum_last_only.
  - destruct (m =? n)%nat eqn:E; [|reflexivity].
    apply Nat.eqb_eq in E. subst n. rewrite Nat.sub_diag. simpl Cpow.
    rewrite sqrt_fact_square. simpl fact. simpl INR.
    pose proof (INR_fact_neq_0 m). csplit; field; assumption.
  - intros k Hk [Hlt|Hlt].
    + rewrite (Cpow_0_pos (m - k)) by lia. rewrite Cmul_0_l. apply Cscale_0_r.
    + rewrite (Cpow_0_pos (n - k)) by lia. rewrite Cmul_0_r. apply Cscale_0_r.
Qed.

Lemma tanh_0 : tanh 0 = 0.
Proof. unfold tanh. rewrite sinh_0, cosh_0. field. Qed.

Lemma half_pos_of_even d : (0 < d)%nat -> Nat.even d = true -> (0 < d / 2)%nat.
Proof.
  intros Hd He. destruct d as [|[|d]]; [lia | discriminate |].
  apply Nat.div_str_pos. lia.
Qed.

Lemma Smat_zero phi m n :
  Backend.Smat 0 phi m n = if (m =? n)%nat then C1 else C0.
Proof.
  unfold Backend.Smat. rewrite tanh_0, cosh_0.
  replace (Cscale 0 (Cexp_i phi)) with C0 by (symmetry; apply Cscale_0_l).
  replace (Cscale (- / 2) C0) with C0 by csimp.
  replace (Cscale (/ 2) (Cconj C0)) with C0 by csimp.
  rewrite icsum_last_only.
  - destruct (m =? n)%nat eqn:E; [|reflexivity].
    apply Nat.eqb_eq in E. subst n. rewrite Nat.sub_diag.
    change (Nat.even 0 && Nat.even 0) with true. cbv iota.
    change (0 / 2)%nat with O. simpl Cpow.
    rewrite sqrt_fact_square. simpl fact. simpl INR.
    rewrite Rinv_1, sqrt_1, pow1.
    pose proof (INR_fact_neq_0 m). csplit; field; assumption.
  - intros k Hk Hlt.
    destruct (Nat.even (m - k)) eqn:Em; [|reflexivity].
    destruct (Nat.even (n - k)) eqn:En; [|reflexivity].
    cbv iota. simpl andb. cbv iota.
    destruct Hlt as [Hlt|Hlt].
    + rewrite (Cpow_0_pos ((m - k) / 2))
        by (apply half_pos_of_even; [lia | exact Em]).
      rewrite Cmul_0_l. apply Cscale_0_r.
    + rewrite (Cpow_0_pos ((n - k) / 2))
        by (apply half_pos_of_even; [lia | exact En]).
      rewrite Cmul_0_r. apply Cscale_0_r.
Qed.

(** The vacuum amplitudes of the two active gates:
    [<0|D(alpha)|0> = e^{-|alpha|^2/2}] and [<0|S|0> = 1/sqrt(cosh r)]. *)
Lemma Dmat_vacuum r phi : Backend.Dmat r phi 0 0 = RtoC (exp (- (r * r) / 2)).
Proof.
  unfold Backend.Dmat. simpl. rewrite (Rmult_1_l 1), sqrt_1. csplit; field.
Qed.

Lemma Smat_vacuum r phi : Backend.Smat r phi 0 0 = RtoC (sqrt (/ cosh r)).
Proof.
  unfold Backend.Smat. simpl. rewrite (Rmult_1_l 1), sqrt_1. csplit; field.
Qed.

(** On a single level a displacement of magnitude [1] takes the vacuum to
    a state of squared norm [e^{-1} < 1]: the truncated gate does not keep
    the norm. *)
Lemma truncated_displacement_norm :
  Diagnostics.norm2 (Backend.apply_matrix 1 (Backend.Dmat 1 0) [C1]) = exp (- 1)
  /\ exp (- 1) < 1.
Proof.
  split.
  - unfold Backend.apply_matrix. simpl. rewrite Dmat_vacuum.
    unfold Diagnostics.norm2, Cnorm2. simpl.
    replace (- (1 * 1) / 2) with (- / 2) by field.
    replace (- 1) with (- / 2 + - / 2) by field.
    rewrite exp_plus. ring.
  - rewrite <- exp_0. apply exp_increasing. lra.
Qed.

(** ** Backend: a layer on a batch and on one state *)

Lemma exec_app cutoff p a b st :
  Backend.exec cutoff p (a ++ b) st =
  Backend.exec cutoff p b (Backend.exec cutoff p a st).
Proof. unfold Backend.exec. apply fold_left_app. Qed.

Lemma exec_layer_commands cutoff p i q st :
  Backend.exec cutoff p (layer_commands i q) st =
  map (Backend.apply_layer cutoff p i) st.
Proof.
  unfold Backend.exec, layer_commands, Backend.apply_layer. simpl.
  repeat rewrite map_map. reflexivity.
Qed.

Lemma apply_layer_identity cutoff p i psi :
  nth i (r1 p) 0 = 0 -> nth i (sq_r p) 0 = 0 -> nth i (r2 p) 0 = 0 ->
  nth i (d_r p) 0 = 0 -> nth i (kappa p) 0 = 0 ->
  length psi = cutoff ->
  Backend.apply_layer cutoff p i psi = psi.
Proof.
  intros H1 H2 H3 H4 H5 Hlen. unfold Backend.apply_layer.
  rewrite H1, H2, H3, H4, H5.
  rewrite (apply_matrix_identity cutoff (Backend.Rmat 0) psi)
    by (try exact Hlen; intros; apply Rmat_zero).
  rewrite (apply_matrix_identity cutoff (Backend.Smat 0 _) psi)
    by (try exact Hlen; intros; apply Smat_zero).
  rewrite (apply_matrix_identity cutoff (Backend.Rmat 0) psi)
    by (try exact Hlen; intros; apply Rmat_zero).
  rewrite (apply_matrix_identity cutoff (Backend.Dmat 0 _) psi)
    by (try exact Hlen; intros; apply Dmat_zero).
  apply apply_matrix_identity; [intros; apply Kmat_zero | exact Hlen].
Qed.

(** C3. If layer [i] has its rotation angles, squeeze magnitude,
    displacement magnitude and Kerr strength at [0] (the two phases
    [sq_phi[i]] and [d_phi[i]] being arbitrary), then the commands that
    [layer(i, q)] appends leave every batch of states of dimension [cutoff]
    unchanged, and so does the layer on a single state. *)
Theorem identity_layer (cutoff depth i q : nat) (p : GateParameterSet)
  (prog : Program) (st : matrix) :
  (i < depth)%nat ->
  nth i (r1 p) 0 = 0 -> nth i (sq_r p) 0 = 0 -> nth i (r2 p) 0 = 0 ->
  nth i (d_r p) 0 = 0 -> nth i (kappa p) 0 = 0 ->
  Forall (fun psi => length psi = cutoff) st ->
  exists cmds,
    layer depth i q prog = Some (q, prog ++ cmds) /\
    Backend.exec cutoff p cmds st = st /\
    (forall psi, length psi = cutoff -> Backend.apply_layer cutoff p i psi = psi).
Proof.
  intros Hi H1 H2 H3 H4 H5 Hst.
  exists (layer_commands i q). split; [apply layer_in_range; exact Hi|].
  split.
  - rewrite exec_layer_commands.
    rewrite <- (map_id st) at 2. apply map_ext_in.
    intros psi Hin. rewrite Forall_forall in Hst.
    apply apply_layer_identity; auto.
  - intros psi Hlen. apply apply_layer_identity; assumption.
Qed.

Lemma identity_layer_witness :
  exists cmds,
    layer 1 0 0 [] = Some (0%nat, [] ++ cmds) /\
    Backend.exec 2 (mkParams [0] [0] [3 / 10] [0] [0] [7 / 10] [0]) cmds
      [[C1; C0]; [C0; C1]] = [[C1; C0]; [C0; C1]] /\
    (forall psi, length psi = 2%nat ->
       Backend.apply_layer 2 (mkParams [0] [0] [3 / 10] [0] [0] [7 / 10] [0])
         0 psi = psi).
Proof.
  apply (identity_layer 2 1 0 0 (mkParams [0] [0] [3 / 10] [0] [0] [7 / 10] [0])
           [] [[C1; C0]; [C0; C1]]);
    try reflexivity; [lia | repeat constructor].
Defined.

(** ** Circuit: the program of cell 8 and its evaluation *)

Lemma layers_in_range depth ks q prog :
  Forall (fun k => (k < depth)%nat) ks ->
  layers depth ks q prog =
  Some (tt, prog ++ flat_map (fun k => layer_commands k q) ks).
Proof.
  intros H. revert prog. induction H as [|k ks Hk _ IH]; intros prog.
  - simpl. unfold ret. rewrite app_nil_r. reflexivity.
  - cbn [layers flat_map]. unfold bind.
    rewrite layer_in_range by exact Hk. rewrite IH, <- app_assoc. reflexivity.
Qed.

Lemma build_program depth in_ket :
  Circuit.build depth in_ket =
  Some (mkCommand (Ket in_ket) [O]
          :: flat_map (fun k => layer_commands k O) (seq 0 depth)).
Proof.
  unfold Circuit.build, circuit, bind, pipe.
  rewrite layers_in_range.
  - reflexivity.
  - apply Forall_forall. intros k Hk. apply in_seq in Hk. lia.
Qed.

Lemma exec_layers cutoff p ks q st :
  Backend.exec cutoff p (flat_map (fun k => layer_commands k q) ks) st =
  map (Backend.apply_layers cutoff p ks) st.
Proof.
  revert st. induction ks as [|k ks IH]; intros st.
  - simpl. unfold Backend.exec. simpl. symmetry. apply map_id.
  - cbn [flat_map]. rewrite exec_app, exec_layer_commands, IH, map_map.
    reflexivity.
Qed.

Lemma run_engine_build cutoff batch_size depth in_ket p :
  Backend.run_engine cutoff batch_size
    (mkCommand (Ket in_ket) [O]
       :: flat_map (fun k => layer_commands k O) (seq 0 depth)) p =
  map (Backend.per_input cutoff p depth) in_ket.
Proof.
  unfold Backend.run_engine.
  change (mkCommand (Ket in_ket) [O]
            :: flat_map (fun k => layer_commands k O) (seq 0 depth))
    with ([mkCommand (Ket in_ket) [O]]
            ++ flat_map (fun k => layer_commands k O) (seq 0 depth)).
  rewrite exec_app, exec_layers. reflexivity.
Qed.

Lemma nth_map_rows {A : Type} (f : vector -> A) (d : A) (st : matrix) i :
  (i < length st)%nat -> nth i (map f st) d = f (nth i st []).
Proof.
  intros Hi. rewrite (nth_indep _ d (f [])) by (rewrite length_map; exact Hi).
  apply map_nth.
Qed.

Lemma set_nth_length k v row : length (set_nth k v row) = length row.
Proof.
  revert k. induction row as [|x row IH]; intros [|k]; simpl; auto.
Qed.

Lemma fill_diagonal_from_length k a v :
  length (fill_diagonal_from k a v) = length a.
Proof.
  revert k. induction a as [|r a IH]; intros k; simpl; auto.
Qed.

Lemma fill_diagonal_from_nth k a v i :
  (i < length a)%nat ->
  nth i (fill_diagonal_from k a v) [] = set_nth (k + i) v (nth i a []).
Proof.
  revert k i. induction a as [|r a IH]; intros k i Hi; simpl in Hi; [lia|].
  destruct i as [|i]; simpl.
  - rewrite Nat.add_0_r. reflexivity.
  - rewrite IH by lia. f_equal. lia.
Qed.

(** Row [i] of the notebook's [in_ket] is the basis state [|i>]. *)
Lemma in_ket_row gate_cutoff cutoff i :
  (i < gate_cutoff)%nat ->
  nth i (fill_diagonal (zeros gate_cutoff cutoff) C1) [] =
  set_nth i C1 (repeat C0 cutoff).
Proof.
  intros Hi. unfold fill_diagonal, zeros.
  rewrite fill_diagonal_from_nth by (rewrite repeat_length; exact Hi).
  simpl. f_equal.
  apply nth_repeat_lt. exact Hi.
Qed.

(** C7. The program of cell 8 is built for every [depth], and the engine
    run on the whole batch of [gate_cutoff] basis inputs gives, at entry
    [i], the state that the same [depth] layers give on the basis input
    [|i>] alone. *)
Theorem batch_equals_per_input (cutoff gate_cutoff depth : nat)
  (p : GateParameterSet) :
  let in_ket := fill_diagonal (zeros gate_cutoff cutoff) C1 in
  exists prog,
    Circuit.build depth in_ket = Some prog /\
    length (Backend.run_engine cutoff gate_cutoff prog p) = gate_cutoff /\
    forall i, (i < gate_cutoff)%nat ->
      nth i (Backend.run_engine cutoff gate_cutoff prog p) [] =
      Backend.per_input cutoff p depth (set_nth i C1 (repeat C0 cutoff)).
Proof.
  intros in_ket. eexists. split; [apply build_program|].
  rewrite run_engine_build.
  assert (Hlen : length in_ket = gate_cutoff).
  { unfold in_ket, fill_diagonal, zeros.
    rewrite fill_diagonal_from_length, repeat_length. reflexivity. }
  split; [rewrite length_map; exact Hlen|].
  intros i Hi. rewrite nth_map_rows by (rewrite Hlen; exact Hi).
  unfold in_ket. rewrite in_ket_row by exact Hi. reflexivity.
Qed.

(** ** Diagnostics: the extracted block *)

Lemma isum_plus n f g :
  isum n (fun i => f i + g i) = isum n f + isum n g.
Proof. induction n as [|n IH]; simpl; [ring|]. rewrite IH. ring. Qed.

Lemma isum_scale n x f : isum n (fun i => x * f i) = x * isum n f.
Proof. induction n as [|n IH]; simpl; [ring|]. rewrite IH. ring. Qed.

Lemma isum_split n d f :
  isum (n + d) f = isum n f + isum d (fun k => f (n + k)%nat).
Proof.
  induction d as [|d IH].
  - rewrite Nat.add_0_r. simpl. ring.
  - rewrite Nat.add_succ_r. simpl. rewrite IH. ring.
Qed.


Lemma Re_icsum n f : Re (icsum n f) = isum n (fun k => Re (f k)).
Proof. induction n as [|n IH]; simpl; [reflexivity|]. rewrite IH. reflexivity. Qed.

Lemma Im_icsum n f : Im (icsum n f) = isum n (fun k => Im (f k)).
Proof. induction n as [|n IH]; simpl; [reflexivity|]. rewrite IH. reflexivity. Qed.

Lemma norm2_isum (v : vector) :
  Diagnostics.norm2 v = isum (length v) (fun k => Cnorm2 (nth k v C0)).
Proof. unfold Diagnostics.norm2. apply reduce_sum_map_isum. Qed.

Lemma ncols_shape (a : matrix) rows cols :
  has_shape a rows cols -> (0 < rows)%nat -> ncols a = cols.
Proof.
  intros [Hl Hf] Hr. destruct a as [|r a]; simpl in *; [lia|].
  inversion Hf; assumption.
Qed.

Lemma transpose_entry (a : matrix) rows cols k b :
  has_shape a rows cols -> (b < rows)%nat ->
  nth b (nth k (transpose a) []) C0 = nth k (nth b a []) C0.
Proof.
  intros Ha Hb. unfold transpose.
  rewrite (ncols_shape a rows cols Ha) by lia.
  destruct (Nat.lt_ge_cases k cols) as [Hk|Hk].
  - rewrite (nth_indep _ [] ((fun j => map (fun row => nth j row C0) a) O))
      by (rewrite length_map, length_seq; exact Hk).
    rewrite (map_nth (fun j => map (fun row => nth j row C0) a)).
    rewrite seq_nth by exact Hk. simpl.
    apply nth_map_rows. destruct Ha as [-> _]. exact Hb.
  - rewrite (nth_overflow (map _ _)) by (rewrite length_map, length_seq; exact Hk).
    rewrite (nth_overflow (nth b a []))
      by (rewrite (has_shape_nth a rows cols b Ha Hb); exact Hk).
    destruct b; reflexivity.
Qed.

Lemma nth_firstn {A : Type} (l : list A) (d : A) n i :
  (i < n)%nat -> nth i (firstn n l) d = nth i l d.
Proof.
  revert l i. induction n as [|n IH]; intros l i Hi; [lia|].
  destruct l as [|x l]; [reflexivity|].
  destruct i as [|i]; simpl; [reflexivity | apply IH; lia].
Qed.

Lemma nth_map_firstn (l : matrix) c k :
  nth k (map (firstn c) l) [] = firstn c (nth k l []).
Proof.
  revert k. induction l as [|x l IH]; intros [|k]; simpl;
    try (rewrite firstn_nil; reflexivity); auto.
Qed.

Lemma slice2_entry (a : matrix) r c k i :
  (k < r)%nat -> (i < c)%nat ->
  Diagnostics.entry (slice2 a r c) k i = Diagnostics.entry a k i.
Proof.
  intros Hk Hi. unfold Diagnostics.entry, slice2.
  rewrite nth_map_firstn.
  rewrite (nth_firstn _ C0 c i) by exact Hi.
  rewrite (nth_firstn a [] r k) by exact Hk. reflexivity.
Qed.

(** Entry [(k, b)] of the learnt block is amplitude [k] of output [b]. *)
Lemma learnt_unitary_entry ket_val g c k b :
  has_shape ket_val g c -> (k < g)%nat -> (b < g)%nat ->
  Diagnostics.entry (Diagnostics.learnt_unitary ket_val g) k b =
  nth k (nth b ket_val []) C0.
Proof.
  intros Hs Hk Hb. unfold Diagnostics.learnt_unitary.
  rewrite slice2_entry by assumption. unfold Diagnostics.entry.
  apply (transpose_entry ket_val g c); assumption.
Qed.

Lemma unitary_col_norm g X b :
  Diagnostics.unitary g X -> (b < g)%nat -> Diagnostics.col_norm2 X g b = 1.
Proof.
  intros [_ HU] Hb. specialize (HU b b Hb Hb). rewrite Nat.eqb_refl in HU.
  apply (f_equal Re) in HU. rewrite Re_icsum in HU. simpl in HU.
  rewrite <- HU. unfold Diagnostics.col_norm2. apply isum_ext.
  intros k _. unfold Cnorm2. ring.
Qed.



(** ** Diagnostics: the vectors [psiV], [psiU] and their product *)

Lemma Csum_app (a b : vector) : Csum (a ++ b) = Cadd (Csum a) (Csum b).
Proof.
  induction a as [|x a IH]; simpl; [symmetry; apply Cadd_0_l|].
  rewrite IH. apply Cadd_assoc.
Qed.

Lemma Csum_map_seq (f : nat -> complex) n : Csum (map f (seq 0 n)) = icsum n f.
Proof.
  induction n as [|n IH]; [reflexivity|].
  rewrite seq_S, map_app, Csum_app, IH. simpl. rewrite Cadd_0_r. reflexivity.
Qed.

Lemma zip_mul_length (a b : vector) :
  length a = length b -> length (zip_mul a b) = length a.
Proof.
  revert b. induction a as [|x a IH]; intros [|y b] H; simpl in *;
    try discriminate; auto.
Qed.

Lemma zip_mul_app (a a' b b' : vector) :
  length a = length b ->
  zip_mul (a ++ a') (b ++ b') = zip_mul a b ++ zip_mul a' b'.
Proof.
  revert b. induction a as [|x a IH]; intros [|y b] H; simpl in *;
    try discriminate; [reflexivity|].
  rewrite IH by lia. reflexivity.
Qed.

Lemma dot_flat_map {A : Type} (F G : A -> vector) (js : list A) :
  (forall j, In j js -> length (F j) = length (G j)) ->
  Csum (zip_mul (flat_map F js) (flat_map G js)) =
  Csum (map (fun j => Csum (zip_mul (F j) (G j))) js).
Proof.
  induction js as [|j js IH]; intros H; [reflexivity|].
  simpl. rewrite zip_mul_app by (apply H; left; reflexivity).
  rewrite Csum_app, IH by (intros; apply H; right; assumption).
  reflexivity.
Qed.

Lemma map_flat_map' {A B D : Type} (f : B -> D) (g : A -> list B) l :
  map f (flat_map g l) = flat_map (fun x => map f (g x)) l.
Proof.
  induction l as [|x l IH]; simpl; [reflexivity|].
  rewrite map_app, IH. reflexivity.
Qed.

Lemma flat_map_map' {A B D : Type} (h : A -> B) (g : B -> list D) l :
  flat_map g (map h l) = flat_map (fun x => g (h x)) l.
Proof.
  induction l as [|x l IH]; simpl; [reflexivity|]. rewrite IH. reflexivity.
Qed.

Lemma flat_map_length_const {A B : Type} (f : A -> list B) l n :
  (forall x, In x l -> length (f x) = n) ->
  length (flat_map f l) = (length l * n)%nat.
Proof.
  induction l as [|x l IH]; intros H; simpl; [reflexivity|].
  rewrite length_app, IH by (intros; apply H; right; assumption).
  rewrite (H x) by (left; reflexivity). reflexivity.
Qed.

Lemma flat_map_ext_in' {A B : Type} (f g : A -> list B) l :
  (forall x, In x l -> f x = g x) -> flat_map f l = flat_map g l.
Proof.
  induction l as [|x l IH]; intros H; simpl; [reflexivity|].
  rewrite IH by (intros; apply H; right; assumption).
  rewrite (H x) by (left; reflexivity). reflexivity.
Qed.

Lemma set_nth_nth i v (l : vector) j :
  nth j (set_nth i v l) C0 =
  if ((i =? j) && (i <? length l))%nat then v else nth j l C0.
Proof.
  revert i j. induction l as [|x l IH]; intros i j.
  - simpl. rewrite andb_false_r. destruct i; reflexivity.
  - destruct i as [|i], j as [|j]; simpl; try reflexivity.
    rewrite IH. reflexivity.
Qed.

Lemma basis_state_delta g i :
  (i < g)%nat -> set_nth i C1 (repeat C0 g) = map (delta i) (seq 0 g).
Proof.
  intros Hi. apply (nth_ext _ _ C0 C0).
  - rewrite set_nth_length, repeat_length, length_map, length_seq. reflexivity.
  - intros j Hj. rewrite set_nth_length, repeat_length in Hj.
    rewrite set_nth_nth, repeat_length.
    rewrite (nth_indep (map _ _) C0 (delta i O))
      by (rewrite length_map, length_seq; exact Hj).
    rewrite map_nth, seq_nth by exact Hj. simpl. unfold delta.
    destruct (Nat.ltb_spec i g); [|lia]. rewrite andb_true_r.
    destruct (i =? j)%nat; [reflexivity|]. apply nth_repeat.
Qed.

Lemma identity_rows g :
  identity g = map (fun i => map (delta i) (seq 0 g)) (seq 0 g).
Proof.
  apply (nth_ext _ _ [] []).
  - unfold identity, fill_diagonal, zeros.
    rewrite fill_diagonal_from_length, repeat_length, length_map, length_seq.
    reflexivity.
  - intros i Hi. unfold identity, fill_diagonal, zeros in Hi.
    rewrite fill_diagonal_from_length, repeat_length in Hi.
    unfold identity. rewrite in_ket_row by exact Hi.
    rewrite (nth_indep (map _ _) [] ((fun i => map (delta i) (seq 0 g)) O))
      by (rewrite length_map, length_seq; exact Hi).
    rewrite (map_nth (fun i => map (delta i) (seq 0 g))), seq_nth by exact Hi.
    apply basis_state_delta. exact Hi.
Qed.

Lemma nth_map_seq (f : nat -> complex) n j :
  (j < n)%nat -> nth j (map f (seq 0 n)) C0 = f j.
Proof.
  intros Hj.
  rewrite (nth_indep _ C0 (f O)) by (rewrite length_map, length_seq; exact Hj).
  rewrite map_nth, seq_nth by exact Hj. reflexivity.
Qed.

Lemma nth_map_vec (f : complex -> complex) (l : vector) j :
  (j < length l)%nat -> nth j (map f l) C0 = f (nth j l C0).
Proof.
  intros Hj. rewrite (nth_indep _ C0 (f C0)) by (rewrite length_map; exact Hj).
  apply map_nth.
Qed.

(** The vector [phi], block by block. *)
Lemma phi_blocks g :
  Diagnostics.phi g =
  flat_map (fun j => map (fun l => Cscale (/ sqrt (INR g)) (delta j l)) (seq 0 g))
           (seq 0 g).
Proof.
  unfold Diagnostics.phi, vdiv, flatten. rewrite identity_rows.
  rewrite <- flat_map_concat_map, map_flat_map'.
  apply flat_map_ext. intros j. rewrite map_map. reflexivity.
Qed.

Lemma phi_length g : length (Diagnostics.phi g) = (g * g)%nat.
Proof.
  rewrite phi_blocks.
  rewrite (flat_map_length_const _ _ g), length_seq; [reflexivity|].
  intros x _. rewrite length_map, length_seq. reflexivity.
Qed.

(** One entry of [np.kron(I, X) @ phi]: the row built from row [i] of [I]
    and a row of [X] picks entry [i] of that row, over [sqrt g]. *)
Lemma kron_row_dot_phi g i (rowb : vector) :
  (i < g)%nat -> length rowb = g ->
  Csum (zip_mul (flat_map (fun x => map (Cmul x) rowb) (map (delta i) (seq 0 g)))
                (Diagnostics.phi g)) =
  Cscale (/ sqrt (INR g)) (nth i rowb C0).
Proof.
  intros Hi Hlen. rewrite phi_blocks, flat_map_map'.
  rewrite dot_flat_map
    by (intros j _; rewrite !length_map, length_seq; exact Hlen).
  rewrite Csum_map_seq.
  rewrite (icsum_ext g _
             (fun j => Cmul (if (i =? j)%nat then C1 else C0)
                            (Cscale (/ sqrt (INR g)) (nth j rowb C0)))).
  - apply icsum_delta. exact Hi.
  - intros j Hj.
    rewrite (Csum_zip_mul_icsum _ _ g)
      by (rewrite ?length_map, ?length_seq; auto).
    rewrite (icsum_ext g _
               (fun l => Cmul (if (j =? l)%nat then C1 else C0)
                  (Cmul (delta i j) (Cscale (/ sqrt (INR g)) (nth l rowb C0))))).
    + rewrite icsum_delta by exact Hj. reflexivity.
    + intros l Hl. rewrite nth_map_vec by (rewrite Hlen; exact Hl).
      rewrite nth_map_seq by exact Hl. unfold delta.
      destruct (j =? l)%nat, (i =? j)%nat; csimp.
Qed.

(** [psiX], column after column of [X], over [sqrt g]. *)
Lemma psi_columns g (X : matrix) r :
  has_shape X r g ->
  Diagnostics.psi g X = Some (Diagnostics.stacked_columns g X).
Proof.
  intros [Hr Hrows]. rewrite Forall_forall in Hrows.
  unfold Diagnostics.psi, Diagnostics.stacked_columns, matvec, kron. rewrite identity_rows, flat_map_map'.
  match goal with
  | |- (if forallb ?t ?rows then _ else _) = _ =>
      assert (Hchk : forallb t rows = true)
  end.
  { apply forallb_forall. intros row Hin.
    apply in_flat_map in Hin. destruct Hin as (i & _ & Hin).
    apply in_map_iff in Hin. destruct Hin as (rowb & <- & Hb).
    rewrite phi_length.
    rewrite (flat_map_length_const _ _ g), length_map, length_seq.
    - apply Nat.eqb_refl.
    - intros x _. rewrite length_map. apply Hrows, Hb. }
  rewrite Hchk. f_equal. rewrite map_flat_map'.
  apply flat_map_ext_in'. intros i Hi. apply in_seq in Hi.
  rewrite map_map. apply map_ext_in. intros rowb Hb.
  apply kron_row_dot_phi; [lia | apply Hrows, Hb].
Qed.

Lemma stacked_columns_length g X :
  length (Diagnostics.stacked_columns g X) = (g * length X)%nat.
Proof.
  unfold Diagnostics.stacked_columns.
  rewrite (flat_map_length_const _ _ (length X)), length_seq; [reflexivity|].
  intros i _. apply length_map.
Qed.

Lemma entry_scaled (X : matrix) s i k :
  nth k (map (fun rowb => Cscale s (nth i rowb C0)) X) C0 =
  Cscale s (Diagnostics.entry X k i).
Proof.
  unfold Diagnostics.entry.
  destruct (Nat.lt_ge_cases k (length X)) as [Hk|Hk].
  - apply (nth_map_rows (fun rowb => Cscale s (nth i rowb C0))). exact Hk.
  - rewrite nth_overflow by (rewrite length_map; exact Hk).
    rewrite (nth_overflow X) by exact Hk.
    destruct i; simpl; symmetry; apply Cscale_0_r.
Qed.

(** [np.vdot(psiV, psiU)] as a double sum over the entries. *)
Lemma vdot_stacked g V U r :
  length V = r -> length U = r ->
  Csum (zip_mul (map Cconj (Diagnostics.stacked_columns g V))
                (Diagnostics.stacked_columns g U)) =
  icsum g (fun i => icsum r (fun k =>
    Cmul (Cconj (Cscale (/ sqrt (INR g)) (Diagnostics.entry V k i)))
         (Cscale (/ sqrt (INR g)) (Diagnostics.entry U k i)))).
Proof.
  intros HV HU. unfold Diagnostics.stacked_columns.
  rewrite map_flat_map'.
  rewrite dot_flat_map by (intros j _; rewrite !length_map; congruence).
  rewrite Csum_map_seq. apply icsum_ext. intros i _.
  rewrite (Csum_zip_mul_icsum _ _ r) by (rewrite ?length_map; assumption).
  apply icsum_ext. intros k _.
  rewrite nth_map_conj, !entry_scaled. reflexivity.
Qed.

Lemma reduce_sum_app a b : reduce_sum (a ++ b) = reduce_sum a + reduce_sum b.
Proof. induction a as [|x a IH]; simpl; [ring|]. rewrite IH. ring. Qed.

Lemma reduce_sum_map_seq (f : nat -> R) n :
  reduce_sum (map f (seq 0 n)) = isum n f.
Proof.
  induction n as [|n IH]; [reflexivity|].
  rewrite seq_S, map_app, reduce_sum_app, IH. simpl. ring.
Qed.

Lemma norm2_flat_map (F : nat -> vector) js :
  Diagnostics.norm2 (flat_map F js) =
  reduce_sum (map (fun j => Diagnostics.norm2 (F j)) js).
Proof.
  unfold Diagnostics.norm2.
  induction js as [|j js IH]; [reflexivity|].
  simpl. rewrite map_app, reduce_sum_app, IH. reflexivity.
Qed.

Lemma norm2_stacked g X r :
  length X = r ->
  Diagnostics.norm2 (Diagnostics.stacked_columns g X) =
  / sqrt (INR g) * / sqrt (INR g)
  * isum g (fun i => Diagnostics.col_norm2 X r i).
Proof.
  intros Hr. unfold Diagnostics.stacked_columns.
  rewrite norm2_flat_map, reduce_sum_map_seq, <- isum_scale.
  apply isum_ext. intros i _.
  rewrite norm2_isum, length_map, Hr.
  unfold Diagnostics.col_norm2. rewrite <- isum_scale.
  apply isum_ext. intros k _. rewrite entry_scaled. apply Cnorm2_scale.
Qed.

Lemma isum_const n x : isum n (fun _ => x) = INR n * x.
Proof.
  induction n as [|n IH]; [simpl; ring|].
  change (isum (S n) (fun _ => x)) with (isum n (fun _ => x) + x).
  rewrite IH, S_INR. ring.
Qed.

Lemma inv_sqrt_sqr g : (0 < g)%nat -> / sqrt (INR g) * / sqrt (INR g) * INR g = 1.
Proof.
  intros Hg. assert (Hpos : 0 < INR g) by (apply lt_0_INR; exact Hg).
  assert (Hs : 0 < sqrt (INR g)) by (apply sqrt_lt_R0; exact Hpos).
  rewrite <- (sqrt_sqrt (INR g)) at 3 by lra. field. lra.
Qed.

(** ** Cauchy-Schwarz for [np.vdot] *)

Lemma cauchy_schwarz_step x1 x2 y1 y2 z1 z2 A B :
  0 <= A -> 0 <= B -> z1 * z1 + z2 * z2 <= A * B ->
  ((x1 * y1 + x2 * y2) + z1) * ((x1 * y1 + x2 * y2) + z1)
  + ((x1 * y2 - x2 * y1) + z2) * ((x1 * y2 - x2 * y1) + z2)
  <= (x1 * x1 + x2 * x2 + A) * (y1 * y1 + y2 * y2 + B).
Proof.
  intros HA HB Hz.
  set (u := x1 * y1 + x2 * y2). set (v := x1 * y2 - x2 * y1).
  set (X := x1 * x1 + x2 * x2). set (Y := y1 * y1 + y2 * y2).
  assert (HX : 0 <= X) by (unfold X; nra).
  assert (HY : 0 <= Y) by (unfold Y; nra).
  assert (Huv : u * u + v * v = X * Y) by (unfold u, v, X, Y; ring).
  clearbody u v X Y.
  remember (u * z1 + v * z2) as t eqn:Ht.
  assert (Ht1 : t * t <= (u * u + v * v) * (z1 * z1 + z2 * z2)).
  { assert (E : (u * u + v * v) * (z1 * z1 + z2 * z2) - t * t
                = Rsqr (u * z2 - v * z1)) by (rewrite Ht; unfold Rsqr; ring).
    pose proof (Rle_0_sqr (u * z2 - v * z1)). lra. }
  assert (Hzz : 0 <= z1 * z1 + z2 * z2).
  { pose proof (Rle_0_sqr z1). pose proof (Rle_0_sqr z2). unfold Rsqr in *. lra. }
  assert (Ht2 : t * t <= (X * B) * (Y * A)).
  { rewrite Huv in Ht1.
    assert (HXY : 0 <= X * Y) by (apply Rmult_le_pos; assumption).
    assert (X * Y * (z1 * z1 + z2 * z2) <= X * Y * (A * B))
      by (apply Rmult_le_compat_l; assumption).
    replace (X * B * (Y * A)) with (X * Y * (A * B)) by ring. lra. }
  assert (HP : 0 <= X * B) by (apply Rmult_le_pos; assumption).
  assert (HQ : 0 <= Y * A) by (apply Rmult_le_pos; assumption).
  set (P := X * B) in *. set (Q := Y * A) in *.
  assert (H2t : 2 * t <= P + Q).
  { destruct (Rle_lt_dec (2 * t) (P + Q)) as [Hle|Hgt]; [exact Hle|].
    exfalso.
    pose proof (Rle_0_sqr (P - Q)) as Hsq. unfold Rsqr in Hsq.
    assert (Hlt : (P + Q) * (P + Q) < (2 * t) * (2 * t)).
    { apply Rmult_le_0_lt_compat; lra. }
    clearbody P Q. nra. }
  replace ((u + z1) * (u + z1) + (v + z2) * (v + z2))
    with (u * u + v * v + 2 * t + (z1 * z1 + z2 * z2)) by (rewrite Ht; ring).
  rewrite Huv. unfold P, Q in H2t. clear Ht Ht1 Ht2. nra.
Qed.

Lemma norm2_nonneg v : 0 <= Diagnostics.norm2 v.
Proof.
  unfold Diagnostics.norm2. apply reduce_sum_nonneg.
  rewrite Forall_map. apply Forall_forall. intros z _. apply Cnorm2_nonneg.
Qed.

Lemma cauchy_schwarz (a b : vector) :
  length a = length b ->
  Cnorm2 (Csum (zip_mul (map Cconj a) b))
  <= Diagnostics.norm2 a * Diagnostics.norm2 b.
Proof.
  revert b. induction a as [|x a IH]; intros [|y b] Hlen; simpl in Hlen;
    try discriminate.
  - unfold Diagnostics.norm2, Cnorm2. simpl. lra.
  - specialize (IH b (eq_add_S _ _ Hlen)).
    pose proof (norm2_nonneg a) as Ha. pose proof (norm2_nonneg b) as Hb.
    simpl map. simpl zip_mul. simpl Csum.
    change (Diagnostics.norm2 (x :: a)) with (Cnorm2 x + Diagnostics.norm2 a).
    change (Diagnostics.norm2 (y :: b)) with (Cnorm2 y + Diagnostics.norm2 b).
    set (z := Csum (zip_mul (map Cconj a) b)) in *.
    pose proof (cauchy_schwarz_step (Re x) (Im x) (Re y) (Im y) (Re z) (Im z)
                  (Diagnostics.norm2 a) (Diagnostics.norm2 b) Ha Hb IH) as H.
    unfold Cnorm2 in *. simpl. 
    replace (Re x * Re y - - Im x * Im y) with (Re x * Re y + Im x * Im y) by ring.
    replace (Re x * Im y + - Im x * Re y) with (Re x * Im y - Im x * Re y) by ring.
    exact H.
Qed.

(** ** Process fidelity *)

Lemma Forall_firstn' {A : Type} (P : A -> Prop) n (l : list A) :
  Forall P l -> Forall P (firstn n l).
Proof.
  intros H. revert n. induction H as [|x l Hx _ IH]; intros [|n]; simpl;
    constructor; auto.
Qed.

Lemma learnt_unitary_shape ket_val g c :
  has_shape ket_val g c -> (g <= c)%nat ->
  has_shape (Diagnostics.learnt_unitary ket_val g) g g.
Proof.
  intros Hs Hle. unfold Diagnostics.learnt_unitary, slice2, transpose. split.
  - rewrite length_map, length_firstn, length_map, length_seq.
    destruct g as [|g]; [reflexivity|].
    rewrite (ncols_shape ket_val (S g) c Hs) by lia. lia.
  - rewrite Forall_map. apply Forall_firstn'. rewrite Forall_map.
    apply Forall_forall. intros j _.
    rewrite length_firstn, length_map. destruct Hs as [-> _]. lia.
Qed.

Lemma target_block_shape T g c :
  has_shape T c c -> (g <= c)%nat ->
  has_shape (Diagnostics.target_block T g) g g.
Proof.
  intros [Hl Hf] Hle. unfold Diagnostics.target_block, slice2. split.
  - rewrite length_map, length_firstn. lia.
  - rewrite Forall_map. apply Forall_firstn'.
    eapply Forall_impl; [|exact Hf]. simpl. intros r Hr.
    rewrite length_firstn. lia.
Qed.

(** The squared norm of column [b] of the learnt block is at most that
    of output [b]. *)
Lemma learnt_col_norm2_le ket_val g c b :
  has_shape ket_val g c -> (g <= c)%nat -> (b < g)%nat ->
  Diagnostics.col_norm2 (Diagnostics.learnt_unitary ket_val g) g b
  <= Diagnostics.norm2 (nth b ket_val []).
Proof.
  intros Hs Hle Hb.
  rewrite norm2_isum, (has_shape_nth ket_val g c b Hs Hb).
  replace c with (g + (c - g))%nat by lia. rewrite isum_split.
  assert (0 <= isum (c - g)
                 (fun k => Cnorm2 (nth (g + k) (nth b ket_val []) C0))).
  { apply isum_nonneg. intros; apply Cnorm2_nonneg. }
  assert (Diagnostics.col_norm2 (Diagnostics.learnt_unitary ket_val g) g b
          = isum g (fun k => Cnorm2 (nth k (nth b ket_val []) C0))).
  { unfold Diagnostics.col_norm2. apply isum_ext. intros k Hk.
    rewrite (learnt_unitary_entry ket_val g c) by assumption. reflexivity. }
  lra.
Qed.

(** The value that cells 18 and 19 compute, as a double sum. *)
Lemma process_fidelity_formula g V U :
  has_shape V g g -> has_shape U g g ->
  Diagnostics.process_fidelity g V U =
  Some (Cnorm2 (icsum g (fun i => icsum g (fun k =>
          Cmul (Cconj (Cscale (/ sqrt (INR g)) (Diagnostics.entry V k i)))
               (Cscale (/ sqrt (INR g)) (Diagnostics.entry U k i)))))).
Proof.
  intros HV HU. unfold Diagnostics.process_fidelity.
  rewrite (psi_columns g V g HV), (psi_columns g U g HU).
  unfold vdot. rewrite !stacked_columns_length.
  destruct HV as [HV _], HU as [HU _]. rewrite HV, HU, Nat.eqb_refl.
  rewrite Cabs_sqr, (vdot_stacked g V U g HV HU). reflexivity.
Qed.

Lemma process_fidelity_stacked g V U :
  has_shape V g g -> has_shape U g g ->
  Diagnostics.process_fidelity g V U =
  Some (Cnorm2 (Csum (zip_mul (map Cconj (Diagnostics.stacked_columns g V))
                              (Diagnostics.stacked_columns g U)))).
Proof.
  intros HV HU. rewrite (process_fidelity_formula g V U HV HU).
  destruct HV as [HV _], HU as [HU _].
  rewrite (vdot_stacked g V U g HV HU). reflexivity.
Qed.

Lemma norm2_stacked_le_1 g X :
  length X = g ->
  (forall i, (i < g)%nat -> Diagnostics.col_norm2 X g i <= 1) ->
  Diagnostics.norm2 (Diagnostics.stacked_columns g X) <= 1.
Proof.
  intros Hl Hcol. rewrite (norm2_stacked g X g Hl).
  destruct g as [|g].
  - simpl. lra.
  - assert (Hle : isum (S g) (fun i => Diagnostics.col_norm2 X (S g) i)
                  <= INR (S g)).
    { rewrite <- (Rmult_1_r (INR (S g))), <- isum_const.
      apply isum_le. exact Hcol. }
    assert (Hs : 0 <= / sqrt (INR (S g)) * / sqrt (INR (S g)))
      by (pose proof (Rle_0_sqr (/ sqrt (INR (S g)))) as H; exact H).
    rewrite <- (inv_sqrt_sqr (S g)) by lia.
    apply Rmult_le_compat_l; assumption.
Qed.

Lemma icsum_Cmul_RtoC n e (f : nat -> R) :
  icsum n (fun k => Cmul e (RtoC (f k))) = Cmul e (RtoC (isum n f)).
Proof.
  induction n as [|n IH]; simpl; [csimp|]. rewrite IH. csimp.
Qed.

Lemma nth_phased theta v k :
  nth k (Diagnostics.phased theta v) C0 = Cmul (Cexp_i theta) (nth k v C0).
Proof.
  unfold Diagnostics.phased.
  transitivity (nth k (map (Cmul (Cexp_i theta)) v) (Cmul (Cexp_i theta) C0)).
  - f_equal. symmetry. apply Cmul_0_r.
  - apply map_nth.
Qed.

Lemma columns_nth T idx tk b :
  columns T idx = Some tk -> (b < length idx)%nat ->
  nth b tk [] = map (fun row => nth (nth b idx O) row C0) T.
Proof.
  revert tk b. induction idx as [|i idx IH]; intros tk b H Hb;
    simpl in Hb; [lia|].
  simpl in H. unfold column in H.
  destruct (i <? ncols T)%nat; [|discriminate].
  destruct (columns T idx) as [cols|] eqn:E; [|discriminate].
  injection H as <-. destruct b as [|b]; simpl; [reflexivity|].
  apply IH; [reflexivity | lia].
Qed.

(** Amplitude [k] of target ket [b] is entry [(k, b)] of the target block. *)
Lemma target_kets_entry T c g tk k b :
  has_shape T c c -> (g <= c)%nat ->
  columns T (arange g) = Some tk -> (k < g)%nat -> (b < g)%nat ->
  nth k (nth b tk []) C0 = Diagnostics.entry (Diagnostics.target_block T g) k b.
Proof.
  intros HT Hle Htk Hk Hb.
  rewrite (columns_nth T (arange g) tk b Htk)
    by (unfold arange; rewrite length_seq; exact Hb).
  unfold arange. rewrite seq_nth by exact Hb. simpl.
  unfold Diagnostics.target_block. rewrite slice2_entry by assumption.
  unfold Diagnostics.entry.
  apply (nth_map_rows (fun row => nth b row C0)).
  destruct HT as [-> _]. lia.
Qed.

(** The bound, and the value [1] for one phase common to all inputs. *)
Lemma process_fidelity_common_phase (gate_cutoff cutoff : nat)
  (target_unitary target_kets ket_val : matrix) :
  (1 <= gate_cutoff <= cutoff)%nat ->
  has_shape target_unitary cutoff cutoff ->
  Diagnostics.unitary gate_cutoff
    (Diagnostics.target_block target_unitary gate_cutoff) ->
  columns target_unitary (arange gate_cutoff) = Some target_kets ->
  has_shape ket_val gate_cutoff cutoff ->
  (forall b, (b < gate_cutoff)%nat -> Diagnostics.norm2 (nth b ket_val []) <= 1) ->
  exists F,
    Diagnostics.process_fidelity gate_cutoff
      (Diagnostics.target_block target_unitary gate_cutoff)
      (Diagnostics.learnt_unitary ket_val gate_cutoff) = Some F /\
    0 <= F <= 1 /\
    (forall theta,
       (forall b, (b < gate_cutoff)%nat ->
          nth b ket_val [] = Diagnostics.phased theta (nth b target_kets [])) ->
       F = 1).
Proof.
  intros [Hg Hle] HT HV Htk Hk Hn.
  set (V := Diagnostics.target_block target_unitary gate_cutoff) in *.
  set (U := Diagnostics.learnt_unitary ket_val gate_cutoff).
  assert (HVs : has_shape V gate_cutoff gate_cutoff) by apply HV.
  assert (HUs : has_shape U gate_cutoff gate_cutoff)
    by (apply (learnt_unitary_shape ket_val gate_cutoff cutoff); assumption).
  eexists. split; [apply process_fidelity_stacked; assumption|].
  split; [split|].
  - apply Cnorm2_nonneg.
  - eapply Rle_trans; [apply cauchy_schwarz|].
    + rewrite !stacked_columns_length.
      destruct HVs as [-> _], HUs as [-> _]. reflexivity.
    + assert (H1 : Diagnostics.norm2 (Diagnostics.stacked_columns gate_cutoff V)
                   <= 1).
      { apply norm2_stacked_le_1; [apply HVs|].
        intros i Hi. rewrite (unitary_col_norm gate_cutoff V i HV Hi). lra. }
      assert (H2 : Diagnostics.norm2 (Diagnostics.stacked_columns gate_cutoff U)
                   <= 1).
      { apply norm2_stacked_le_1; [apply HUs|].
        intros i Hi. eapply Rle_trans; [|apply (Hn i Hi)].
        apply (learnt_col_norm2_le ket_val gate_cutoff cutoff); assumption. }
      pose proof (norm2_nonneg (Diagnostics.stacked_columns gate_cutoff V)).
      pose proof (norm2_nonneg (Diagnostics.stacked_columns gate_cutoff U)).
      nra.
  - intros theta Hph.
    rewrite (vdot_stacked gate_cutoff V U gate_cutoff)
      by (try apply HVs; apply HUs).
    set (s := / sqrt (INR gate_cutoff)).
    rewrite (icsum_ext gate_cutoff _
               (fun i => Cmul (Cexp_i theta)
                  (RtoC (isum gate_cutoff
                           (fun k => s * s * Cnorm2 (Diagnostics.entry V k i)))))).
    + rewrite icsum_Cmul_RtoC, Cnorm2_mul, Cnorm2_Cexp_i.
      rewrite (isum_ext gate_cutoff _ (fun _ => s * s * 1)).
      * rewrite isum_const. unfold s.
        replace (INR gate_cutoff *
                 (/ sqrt (INR gate_cutoff) * / sqrt (INR gate_cutoff) * 1))
          with (/ sqrt (INR gate_cutoff) * / sqrt (INR gate_cutoff)
                * INR gate_cutoff) by ring.
        rewrite inv_sqrt_sqr by lia. unfold Cnorm2, RtoC. simpl. ring.
      * intros i Hi. rewrite isum_scale.
        change (isum gate_cutoff (fun k => Cnorm2 (Diagnostics.entry V k i)))
          with (Diagnostics.col_norm2 V gate_cutoff i).
        rewrite (unitary_col_norm gate_cutoff V i HV Hi). reflexivity.
    + intros i Hi. rewrite <- icsum_Cmul_RtoC. apply icsum_ext. intros k Hk'.
      unfold U. rewrite (learnt_unitary_entry ket_val gate_cutoff cutoff)
        by assumption.
      rewrite (Hph i Hi), nth_phased.
      rewrite (target_kets_entry target_unitary cutoff gate_cutoff target_kets k i)
        by assumption.
      fold V. unfold Cnorm2. csimp.
Qed.

Lemma unitary_identity_two : Diagnostics.unitary 2 [[C1; C0]; [C0; C1]].
Proof.
  split; [split; [reflexivity | repeat constructor]|].
  intros [|[|i]] [|[|j]] Hi Hj; try lia; simpl; csimp.
Qed.

Lemma phased_zero_first : Diagnostics.phased 0 [C1; C0] = [C1; C0].
Proof.
  unfold Diagnostics.phased. simpl.
  rewrite Cexp_i_0, Cmul_1_l, Cmul_1_l. reflexivity.
Qed.

Lemma phased_pi_second : Diagnostics.phased PI [C0; C1] = [C0; mkC (-1) 0].
Proof.
  unfold Diagnostics.phased, Cexp_i. simpl. rewrite cos_PI, sin_PI.
  f_equal; [csimp | f_equal; csimp].
Qed.

Lemma phased_ext theta theta' v :
  Cexp_i theta = Cexp_i theta' ->
  Diagnostics.phased theta v = Diagnostics.phased theta' v.
Proof. intros H. unfold Diagnostics.phased. rewrite H. reflexivity. Qed.

(** C6. For a target whose [gate_cutoff] block is unitary and an output
    batch of states of norm at most [1] (unit-norm states in particular),
    the process fidelity of cells 18 and 19 is computed and lies in
    [[0, 1]]; it is [1] when every output state is its target ket up to a
    phase [e^{i theta_b}] for each input [b], with the phases aligned: the
    factors [e^{i theta_b}] are the same for all inputs. *)
Theorem process_fidelity_bounds (gate_cutoff cutoff : nat)
  (target_unitary target_kets ket_val : matrix) :
  (1 <= gate_cutoff <= cutoff)%nat ->
  has_shape target_unitary cutoff cutoff ->
  Diagnostics.unitary gate_cutoff
    (Diagnostics.target_block target_unitary gate_cutoff) ->
  columns target_unitary (arange gate_cutoff) = Some target_kets ->
  has_shape ket_val gate_cutoff cutoff ->
  (forall b, (b < gate_cutoff)%nat -> Diagnostics.norm2 (nth b ket_val []) <= 1) ->
  exists F,
    Diagnostics.process_fidelity gate_cutoff
      (Diagnostics.target_block target_unitary gate_cutoff)
      (Diagnostics.learnt_unitary ket_val gate_cutoff) = Some F /\
    0 <= F <= 1 /\
    (forall theta : nat -> R,
       (forall b, (b < gate_cutoff)%nat ->
          nth b ket_val [] =
          Diagnostics.phased (theta b) (nth b target_kets [])) ->
       (forall b, (b < gate_cutoff)%nat ->
          Cexp_i (theta b) = Cexp_i (theta O)) ->
       F = 1).
Proof.
  intros Hg HT HV Htk Hk Hn.
  destruct (process_fidelity_common_phase gate_cutoff cutoff target_unitary
              target_kets ket_val Hg HT HV Htk Hk Hn)
    as (F & HF & Hb & H1).
  exists F. split; [exact HF|]. split; [exact Hb|].
  intros theta Hph Hal. apply (H1 (theta O)).
  intros b Hlt. rewrite (Hph b Hlt). apply phased_ext, Hal, Hlt.
Qed.

(** The swap of two levels is unitary. *)
Lemma unitary_swap_two : Diagnostics.unitary 2 [[C0; C1]; [C1; C0]].
Proof.
  split; [split; [reflexivity | repeat constructor]|].
  intros [|[|i]] [|[|j]] Hi Hj; try lia; simpl; csimp.
Qed.

Lemma norm2_phased theta v :
  Diagnostics.norm2 (Diagnostics.phased theta v) = Diagnostics.norm2 v.
Proof.
  unfold Diagnostics.norm2, Diagnostics.phased. rewrite map_map.
  f_equal. apply map_ext. intros z. rewrite Cnorm2_mul, Cnorm2_Cexp_i. ring.
Qed.

Lemma Cexp_i_neg_PI : Cexp_i (- PI) = Cexp_i PI.
Proof.
  unfold Cexp_i. rewrite cos_neg, sin_neg, sin_PI. f_equal. ring.
Qed.

(** A target that swaps the first two of three levels; the two outputs are
    the target kets with the phases [pi] and [-pi], which are aligned. *)
Lemma process_fidelity_bounds_witness :
  exists F,
    Diagnostics.process_fidelity 2
      (Diagnostics.target_block
         [[C0; C1; C0]; [C1; C0; C0]; [C0; C0; C1]] 2)
      (Diagnostics.learnt_unitary
         [Diagnostics.phased PI [C0; C1; C0];
          Diagnostics.phased (- PI) [C1; C0; C0]] 2) = Some F /\
    0 <= F <= 1 /\ F = 1.
Proof.
  destruct (process_fidelity_bounds 2 3
              [[C0; C1; C0]; [C1; C0; C0]; [C0; C0; C1]]
              [[C0; C1; C0]; [C1; C0; C0]]
              [Diagnostics.phased PI [C0; C1; C0];
               Diagnostics.phased (- PI) [C1; C0; C0]])
    as (F & HF & Hb & H1).
  - lia.
  - split; [reflexivity | repeat constructor].
  - exact unitary_swap_two.
  - reflexivity.
  - split; [reflexivity | repeat constructor].
  - intros [|[|b]] Hb; try lia; cbn [nth]; rewrite norm2_phased;
      unfold Diagnostics.norm2, Cnorm2; simpl; lra.
  - exists F. split; [exact HF|]. split; [exact Hb|].
    apply (H1 (fun b => match b with O => PI | _ => - PI end)).
    + intros [|[|b]] Hb'; try lia; reflexivity.
    + intros [|[|b]] Hb'; try lia; [reflexivity | exact Cexp_i_neg_PI].
Defined.

(** The alignment of the phases is needed: with the identity as target on
    two levels, the outputs [|0>] and [e^{i pi} |1>] are the target kets up
    to a phase for each input, all of unit norm, and the process fidelity is
    [0]. *)
Lemma process_fidelity_needs_aligned_phases :
  exists target_unitary target_kets ket_val : matrix,
    has_shape target_unitary 2 2 /\
    Diagnostics.unitary 2 (Diagnostics.target_block target_unitary 2) /\
    columns target_unitary (arange 2) = Some target_kets /\
    has_shape ket_val 2 2 /\
    (forall b, (b < 2)%nat -> Diagnostics.norm2 (nth b ket_val []) = 1) /\
    (forall b, (b < 2)%nat ->
       exists theta,
         nth b ket_val [] = Diagnostics.phased theta (nth b target_kets [])) /\
    Diagnostics.process_fidelity 2 (Diagnostics.target_block target_unitary 2)
      (Diagnostics.learnt_unitary ket_val 2) = Some 0.
Proof.
  exists [[C1; C0]; [C0; C1]], [[C1; C0]; [C0; C1]],
         [Diagnostics.phased 0 [C1; C0]; Diagnostics.phased PI [C0; C1]].
  split; [split; [reflexivity | repeat constructor]|].
  split; [exact unitary_identity_two|].
  split; [reflexivity|].
  split; [split; [reflexivity | repeat constructor]|].
  split; [|split].
  - intros [|[|b]] Hb; try lia; cbn [nth]; rewrite norm2_phased;
      unfold Diagnostics.norm2, Cnorm2; simpl; lra.
  - intros [|[|b]] Hb; try lia; cbn [nth];
      [exists 0 | exists PI]; reflexivity.
  - rewrite process_fidelity_formula;
      try (split; [reflexivity | repeat constructor]).
    rewrite phased_zero_first, phased_pi_second.
    f_equal. unfold Cnorm2. simpl. ring.
Qed.

(** ** The whole run *)

Lemma apply_matrix_length cutoff M psi :
  length (Backend.apply_matrix cutoff M psi) = cutoff.
Proof. unfold Backend.apply_matrix. rewrite length_map, length_seq. reflexivity. Qed.

Lemma apply_layer_length cutoff p i psi :
  length (Backend.apply_layer cutoff p i psi) = cutoff.
Proof. unfold Backend.apply_layer. apply apply_matrix_length. Qed.

Lemma apply_layers_length cutoff p ks psi :
  length psi = cutoff -> length (Backend.apply_layers cutoff p ks psi) = cutoff.
Proof.
  revert psi. induction ks as [|k ks IH]; intros psi H; simpl; [exact H|].
  apply IH, apply_layer_length.
Qed.

Lemma in_ket_shape g c : has_shape (fill_diagonal (zeros g c) C1) g c.
Proof.
  unfold fill_diagonal, zeros. split.
  - rewrite fill_diagonal_from_length, repeat_length. reflexivity.
  - generalize O as k. induction g as [|g IH]; intros k; simpl; constructor.
    + rewrite set_nth_length, repeat_length. reflexivity.
    + apply IH.
Qed.

Lemma identity_shape n : has_shape (identity n) n n.
Proof. apply in_ket_shape. Qed.

(** The state that cell 8 defines has the shape of [in_ket]. *)
Lemma ket_shape cutoff g depth p :
  has_shape
    (map (Backend.per_input cutoff p depth) (fill_diagonal (zeros g cutoff) C1))
    g cutoff.
Proof.
  destruct (in_ket_shape g cutoff) as [Hl Hf]. split.
  - rewrite length_map. exact Hl.
  - rewrite Forall_map. eapply Forall_impl; [|exact Hf].
    simpl. intros psi Hpsi. apply apply_layers_length, Hpsi.
Qed.

Lemma evaluate_returns g c out tgt :
  has_shape out g c -> has_shape tgt g c -> Cost.evaluate out tgt <> None.
Proof.
  intros Hout Htgt. unfold Cost.evaluate, Cost.overlaps, einsum_bi_bi_b.
  rewrite (same_shape_of_shapes _ _ g c (has_shape_conj2 _ _ _ Htgt) Hout).
  simpl. discriminate.
Qed.

Lemma overwrite_row_length j c src row :
  length (overwrite_row j c src row) = length row.
Proof.
  revert j. induction row as [|x row IH]; intros j; simpl; auto.
Qed.

Lemma overwrite_rows_shape i r c src a rows cols :
  has_shape a rows cols -> has_shape (overwrite_rows i r c src a) rows cols.
Proof.
  revert i rows. induction a as [|row a IH]; intros i rows Ha.
  - exact Ha.
  - destruct rows as [|rows]; [destruct Ha; discriminate|].
    apply has_shape_cons in Ha. destruct Ha as [Hrow Ha].
    simpl. apply has_shape_cons. split; [|apply IH; exact Ha].
    destruct (i <? r)%nat; [rewrite overwrite_row_length|]; exact Hrow.
Qed.

Lemma setitem_block_shape a g v a' rows cols :
  has_shape a rows cols -> setitem_block a g v = Some a' ->
  has_shape a' rows cols.
Proof.
  intros Ha. unfold setitem_block.
  destruct (_ && _); [|discriminate]. intros H. injection H as <-.
  apply overwrite_rows_shape, Ha.
Qed.

Lemma columns_in_range T idx rows cols :
  has_shape T rows cols -> (0 < rows)%nat ->
  Forall (fun i => (i < cols)%nat) idx ->
  exists tk, columns T idx = Some tk /\ has_shape tk (length idx) rows.
Proof.
  intros HT Hr Hidx. induction Hidx as [|i idx Hi _ IH].
  - exists []. split; [reflexivity | split; [reflexivity | constructor]].
  - destruct IH as (tk & Htk & Hs). simpl. unfold column.
    rewrite (ncols_shape T rows cols HT Hr).
    destruct (Nat.ltb_spec i cols); [|lia]. rewrite Htk.
    eexists. split; [reflexivity|].
    apply has_shape_cons. split; [|exact Hs].
    rewrite length_map. apply HT.
Qed.

Lemma columns_out_of_range T idx i :
  In i idx -> (ncols T <= i)%nat -> columns T idx = None.
Proof.
  intros Hin Hi. induction idx as [|j idx IH]; [destruct Hin|].
  simpl. unfold column. destruct (Nat.ltb_spec j (ncols T)) as [Hj|Hj];
    [|reflexivity].
  destruct Hin as [->|Hin]; [lia|]. rewrite (IH Hin). reflexivity.
Qed.

Lemma minimize_with_layers depth in_ket :
  (1 <= depth)%nat ->
  Notebook.minimize
    (mkCommand (Ket in_ket) [O]
       :: flat_map (fun k => layer_commands k O) (seq 0 depth)) = true.
Proof.
  intros Hd. destruct depth as [|d]; [lia|]. reflexivity.
Qed.

Section RunFacts.

Import Notebook.

Variable draws : Family -> nat -> R.
Variable random_interferometer : nat -> matrix.
Variable Slots : Type.
Variable slots0 : Slots.
Variable min_cost : Program -> matrix ->
                    GateParameterSet * Slots -> GateParameterSet * Slots.

Hypothesis interferometer_shape : has_shape (random_interferometer 4) 4 4.

(** With [gate_cutoff = 4 <= cutoff] and at least one layer nothing
    raises, whatever [reps] and the two deviations are, and the loop runs
    [reps] times. *)
Lemma run_completes (c : Config) :
  gate_cutoff c = 4%nat -> (4 <= cutoff c)%nat -> (1 <= depth c)%nat ->
  exists final pr,
    Notebook.run draws random_interferometer Slots slots0 min_cost c
    = Completed final pr /\
    length (Driver.cost_progress pr) = Z.to_nat (reps c) /\
    length (Driver.overlap_progress pr) = Z.to_nat (reps c).
Proof.
  intros Hg Hc Hd. unfold Notebook.run.
  rewrite build_program.
  rewrite (minimize_with_layers (depth c) (Notebook.in_ket c) Hd).
  assert (Hncols : ncols (identity (cutoff c)) = cutoff c)
    by (apply (ncols_shape _ (cutoff c)); [apply identity_shape | lia]).
  assert (Hrows : length (identity (cutoff c)) = cutoff c)
    by apply identity_shape.
  assert (Hv : ncols (random_interferometer 4) = 4%nat)
    by (apply (ncols_shape _ 4); [exact interferometer_shape | lia]).
  destruct (Notebook.target_unitary random_interferometer c) as [target|]
    eqn:Ht.
  2:{ exfalso. unfold Notebook.target_unitary, setitem_block in Ht.
      rewrite Hncols, Hrows, Hv, Hg in Ht.
      destruct interferometer_shape as [Hl _]. rewrite Hl in Ht.
      replace (Nat.min 4 (cutoff c)) with 4%nat in Ht by lia.
      simpl in Ht. discriminate. }
  assert (Hts : has_shape target (cutoff c) (cutoff c)).
  { apply (setitem_block_shape _ _ _ _ _ _ (identity_shape (cutoff c)) Ht). }
  destruct (columns_in_range target (arange (gate_cutoff c)) (cutoff c)
              (cutoff c) Hts) as (tk & Htk & Htks).
  { lia. }
  { apply Forall_forall. intros i Hi. unfold arange in Hi.
    apply in_seq in Hi. lia. }
  unfold arange in Htks. rewrite length_seq in Htks.
  unfold Notebook.target_kets. rewrite Htk.
  set (sr := Notebook.session_run Slots min_cost c _ tk).
  assert (Hret : forall s, sr s <> None).
  { intros s. unfold sr, Notebook.session_run.
    rewrite run_engine_build.
    pose proof (evaluate_returns (gate_cutoff c) (cutoff c) _ tk
                  (ket_shape (cutoff c) (gate_cutoff c) (depth c) (fst s))
                  Htks) as He.
    unfold Notebook.in_ket.
    destruct (Cost.evaluate _ tk) as [[cost ov]|];
      [discriminate | contradiction]. }
  unfold Driver.optimise.
  destruct (for_loop_history _ sr Hret (Driver.range (reps c))
              (initialize draws (depth c) (passive_sd c) (active_sd c), slots0)
              Driver.start)
    as (s & pr & fs & Hl & Hlen & _ & Hcp & Hop & _).
  rewrite Hl. exists (fst s), pr. split; [reflexivity|].
  rewrite range_length in Hlen. simpl in Hcp, Hop.
  rewrite Hcp, Hop, !length_map. auto.
Qed.

(** With [gate_cutoff > cutoff] building the target raises: first the
    slice assignment of cell 10, or else the column index of cell 11. *)
Lemma run_fails_before_loop (c : Config) :
  (cutoff c < gate_cutoff c)%nat ->
  exists stage,
    Notebook.run draws random_interferometer Slots slots0 min_cost c
    = Failed stage.
Proof.
  intros Hgc. unfold Notebook.run. rewrite build_program.
  destruct (Notebook.target_unitary random_interferometer c) as [target|]
    eqn:Ht; [|exists AtTarget; reflexivity].
  exists AtTargetKets.
  assert (Hts : has_shape target (cutoff c) (cutoff c)).
  { apply (setitem_block_shape _ _ _ _ _ _ (identity_shape (cutoff c)) Ht). }
  unfold Notebook.target_kets.
  rewrite (columns_out_of_range target (arange (gate_cutoff c)) (cutoff c)).
  - reflexivity.
  - unfold arange. apply in_seq. lia.
  - destruct target as [|row target]; [simpl; lia|].
    rewrite (ncols_shape _ (cutoff c) (cutoff c) Hts); [lia|].
    destruct Hts as [Hl _]. simpl in Hl. lia.
Qed.

(** Without a layer the cost depends on no variable: when cells 10 and 11
    pass, [optimiser.minimize] of cell 12 raises. *)
Lemma run_fails_without_layer (c : Config) :
  depth c = O ->
  exists stage,
    Notebook.run draws random_interferometer Slots slots0 min_cost c
    = Failed stage.
Proof.
  intros Hd. unfold Notebook.run. rewrite build_program, Hd.
  destruct (Notebook.target_unitary random_interferometer c) as [target|];
    [|exists AtTarget; reflexivity].
  destruct (Notebook.target_kets c target) as [tk|];
    [|exists AtTargetKets; reflexivity].
  exists AtOptimiser. reflexivity.
Qed.

End RunFacts.

(** ** The learnt block of the circuit's outputs *)









(** C9, as amended. The notebook has no check of its configuration.
    A [gate_cutoff] above [cutoff] and a [depth] of [0] still stop the run
    before the loop, because building the target (cells 10 and 11) or the
    optimiser's update (cell 12) raises.  With [gate_cutoff = 4 <= cutoff]
    and [depth >= 1] the run ends normally after [reps] iterations (none for
    a negative [reps]) whatever the two standard deviations are: a
    non-positive deviation or a negative [reps] is not rejected. *)
Theorem run_configuration_handling (draws : Family -> nat -> R)
  (random_interferometer : nat -> matrix) (Slots : Type) (slots0 : Slots)
  (min_cost : Program -> matrix ->
              GateParameterSet * Slots -> GateParameterSet * Slots)
  (c : Notebook.Config) :
  has_shape (random_interferometer 4%nat) 4 4 ->
  ((Notebook.cutoff c < Notebook.gate_cutoff c)%nat ->
     exists stage,
       Notebook.run draws random_interferometer Slots slots0 min_cost c
       = Notebook.Failed stage) /\
  (Notebook.depth c = O ->
     exists stage,
       Notebook.run draws random_interferometer Slots slots0 min_cost c
       = Notebook.Failed stage) /\
  (Notebook.gate_cutoff c = 4%nat -> (4 <= Notebook.cutoff c)%nat ->
   (1 <= Notebook.depth c)%nat ->
     exists final pr,
       Notebook.run draws random_interferometer Slots slots0 min_cost c
       = Notebook.Completed final pr /\
       length (Driver.cost_progress pr) = Z.to_nat (Notebook.reps c) /\
       length (Driver.overlap_progress pr) = Z.to_nat (Notebook.reps c)).
Proof.
  intros Hri. split; [|split].
  - apply run_fails_before_loop.
  - apply run_fails_without_layer.
  - intros Hg Hc Hd. apply run_completes; assumption.
Qed.

(** The three cases at work: [gate_cutoff = 4 > cutoff = 3] raises,
    [depth = 0] raises, and cell 1's configuration with [reps = 1000] and
    [active_sd = -0.001] runs its [1000] iterations. *)
Lemma run_configuration_handling_witness :
  (exists stage,
     Notebook.run (fun _ _ => 0) identity unit tt (fun _ _ s => s)
       (Notebook.mkConfig 3 4 25 1000 (1 / 10) (1 / 1000))
     = Notebook.Failed stage) /\
  (exists stage,
     Notebook.run (fun _ _ => 0) identity unit tt (fun _ _ s => s)
       (Notebook.mkConfig 10 4 0 1000 (1 / 10) (1 / 1000))
     = Notebook.Failed stage) /\
  (exists final pr,
     Notebook.run (fun _ _ => 0) identity unit tt (fun _ _ s => s)
       (Notebook.mkConfig 10 4 25 1000 (1 / 10) (- (1 / 1000)))
     = Notebook.Completed final pr /\
     length (Driver.cost_progress pr) = Z.to_nat 1000 /\
     length (Driver.overlap_progress pr) = Z.to_nat 1000).
Proof.
  split; [|split].
  - apply (proj1 (run_configuration_handling (fun _ _ => 0) identity unit tt
                    (fun _ _ s => s)
                    (Notebook.mkConfig 3 4 25 1000 (1 / 10) (1 / 1000))
                    (identity_shape 4))).
    simpl. lia.
  - apply (proj1 (proj2 (run_configuration_handling (fun _ _ => 0) identity
                           unit tt (fun _ _ s => s)
                           (Notebook.mkConfig 10 4 0 1000 (1 / 10) (1 / 1000))
                           (identity_shape 4)))).
    reflexivity.
  - apply (proj2 (proj2 (run_configuration_handling (fun _ _ => 0) identity
                           unit tt (fun _ _ s => s)
                           (Notebook.mkConfig 10 4 25 1000 (1 / 10)
                              (- (1 / 1000)))
                           (identity_shape 4)))).
    + reflexivity.
    + simpl. lia.
    + simpl. lia.
Defined.

(** C9, as stated, fails: the configuration of cell 1 with [active_sd =
    -0.001] is not valid, and nothing rejects it: the run goes through its
    [1000] iterations. *)
Lemma invalid_configuration_accepted_counterexample :
  exists c : Notebook.Config,
    ~ Notebook.valid_config c /\
    exists final pr,
      Notebook.run (fun _ _ => 0) identity unit tt (fun _ _ s => s) c
      = Notebook.Completed final pr /\
      length (Driver.cost_progress pr) = 1000%nat /\
      length (Driver.overlap_progress pr) = 1000%nat.
Proof.
  exists (Notebook.mkConfig 10 4 25 1000 (1 / 10) (- (1 / 1000))).
  split.
  - unfold Notebook.valid_config. simpl. intros (_ & _ & _ & _ & _ & H). lra.
  - destruct (run_completes (fun _ _ => 0) identity unit tt (fun _ _ s => s)
                (identity_shape 4)
                (Notebook.mkConfig 10 4 25 1000 (1 / 10) (- (1 / 1000))))
      as (final & pr & Hrun & H1 & H2).
    + reflexivity.
    + simpl. lia.
    + simpl. lia.
    + exists final, pr. split; [exact Hrun|].
      simpl Notebook.reps in H1, H2.
      change (Z.to_nat 1000) with 1000%nat in H1, H2. auto.
Qed.


(* ================================================================== *)
(** * Further properties of the notebook's cells *)

(** ** Cell 20: the largest squeezing magnitude *)

Lemma fold_left_Rmax_ge_init l x : x <= fold_left Rmax l x.
Proof.
  revert x. induction l as [|y l IH]; intros x; simpl; [lra|].
  eapply Rle_trans; [apply (Rmax_l x y) | apply IH].
Qed.

Lemma fold_left_Rmax_upper l x y : In y l -> y <= fold_left Rmax l x.
Proof.
  revert x. induction l as [|z l IH]; intros x Hin; simpl; [destruct Hin|].
  destruct Hin as [->|Hin]; [|apply IH; exact Hin].
  eapply Rle_trans; [apply (Rmax_r x y) | apply fold_left_Rmax_ge_init].
Qed.

Lemma fold_left_Rmax_attained l x :
  fold_left Rmax l x = x \/ In (fold_left Rmax l x) l.
Proof.
  revert x. induction l as [|y l IH]; intros x; simpl; [left; reflexivity|].
  destruct (IH (Rmax x y)) as [H|H]; [|right; right; exact H].
  rewrite H. unfold Rmax. destruct (Rle_dec x y); [right; left | left]; reflexivity.
Qed.

(** X1. The parameter list fetched by the loop has the squeeze magnitudes
    at index [1], so cell 20 reads [sq_r]: with no layer it raises; otherwise
    it returns a non-negative [m] that bounds every [|sq_r[i]|] and is one
    of them. *)
Theorem max_squeezing_spec (p : GateParameterSet) :
  (sq_r p = [] -> Diagnostics.max_squeezing (params p) = None) /\
  (sq_r p <> [] ->
     exists m,
       Diagnostics.max_squeezing (params p) = Some m /\
       0 <= m /\
       (forall i, (i < length (sq_r p))%nat -> Rabs (nth i (sq_r p) 0) <= m) /\
       (exists i, (i < length (sq_r p))%nat /\ m = Rabs (nth i (sq_r p) 0))).
Proof.
  unfold Diagnostics.max_squeezing, params. simpl.
  split; [intros ->; reflexivity|].
  intros Hne. destruct (sq_r p) as [|x l]; [contradiction|]. clear Hne.
  exists (fold_left Rmax (map Rabs l) (Rabs x)). split; [reflexivity|].
  assert (Hge : Rabs x <= fold_left Rmax (map Rabs l) (Rabs x))
    by apply fold_left_Rmax_ge_init.
  split; [pose proof (Rabs_pos x); lra|]. split.
  - intros [|i] Hi; [exact Hge|]. simpl in Hi.
    apply fold_left_Rmax_upper.
    change (Rabs (nth (S i) (x :: l) 0)) with (Rabs (nth i l 0)).
    apply in_map, nth_In. lia.
  - destruct (fold_left_Rmax_attained (map Rabs l) (Rabs x)) as [H|H].
    + exists O. split; [simpl; lia | rewrite H; reflexivity].
    + apply in_map_iff in H. destruct H as (y & Hy & Hin).
      destruct (In_nth l y 0 Hin) as (i & Hi & Hnth).
      exists (S i). split; [simpl; lia|].
      simpl. rewrite Hnth, Hy. reflexivity.
Qed.

(** ** Cell 7: the input kets *)

Lemma isum_indicator n b x :
  (b < n)%nat -> isum n (fun k => if (b =? k)%nat then x else 0) = x.
Proof.
  induction n as [|n IH]; intros Hb; [lia|]. simpl.
  destruct (Nat.eqb_spec b n) as [->|Hne].
  - rewrite (isum_ext n _ (fun _ => 0)).
    + rewrite isum_const_0. ring.
    + intros k Hk. destruct (Nat.eqb_spec n k); [lia | reflexivity].
  - rewrite IH by lia. ring.
Qed.

Lemma basis_state_nth b c j :
  nth j (set_nth b C1 (repeat C0 c)) C0 =
  if ((b =? j) && (b <? c))%nat then C1 else C0.
Proof.
  rewrite set_nth_nth, repeat_length.
  destruct ((b =? j) && (b <? c))%nat; [reflexivity | apply nth_repeat].
Qed.

Lemma basis_state_norm2 b c :
  Diagnostics.norm2 (set_nth b C1 (repeat C0 c)) =
  if (b <? c)%nat then 1 else 0.
Proof.
  rewrite norm2_isum, set_nth_length, repeat_length.
  destruct (Nat.ltb_spec b c) as [Hb|Hb].
  - rewrite (isum_ext c _ (fun k => if (b =? k)%nat then 1 else 0)).
    + apply isum_indicator. exact Hb.
    + intros k Hk. rewrite basis_state_nth.
      destruct (Nat.ltb_spec b c); [|lia]. rewrite andb_true_r.
      destruct (b =? k)%nat; unfold Cnorm2; simpl; ring.
  - rewrite (isum_ext c _ (fun _ => 0)); [apply isum_const_0|].
    intros k Hk. rewrite basis_state_nth.
    destruct (Nat.ltb_spec b c); [lia|]. rewrite andb_false_r.
    unfold Cnorm2. simpl. ring.
Qed.

(** X2. Cell 7 builds [gate_cutoff] rows of [cutoff] amplitudes; row [b]
    holds [1] at level [b] and [0] elsewhere, so it is the basis state
    [|b>] of norm [1] when [b < cutoff], and the zero vector for the rows
    [b >= cutoff] that a [gate_cutoff] above [cutoff] adds. *)
Theorem in_ket_basis_states (c : Notebook.Config) :
  has_shape (Notebook.in_ket c) (Notebook.gate_cutoff c) (Notebook.cutoff c) /\
  forall b, (b < Notebook.gate_cutoff c)%nat ->
    (forall j, (j < Notebook.cutoff c)%nat ->
       Diagnostics.entry (Notebook.in_ket c) b j = delta b j) /\
    Diagnostics.norm2 (nth b (Notebook.in_ket c) []) =
    (if (b <? Notebook.cutoff c)%nat then 1 else 0).
Proof.
  unfold Notebook.in_ket. split; [apply in_ket_shape|].
  intros b Hb. unfold Diagnostics.entry. rewrite in_ket_row by exact Hb.
  split; [|apply basis_state_norm2].
  intros j Hj. rewrite basis_state_nth. unfold delta.
  destruct (Nat.eqb_spec b j) as [->|Hne]; [|reflexivity].
  destruct (Nat.ltb_spec j (Notebook.cutoff c)); [reflexivity | lia].
Qed.

(** ** Cells 10, 11 and 16: the target *)

Lemma overwrite_row_nth j0 c src row j :
  (j < length row)%nat ->
  nth j (overwrite_row j0 c src row) C0 =
  if (j0 + j <? c)%nat then src (j0 + j)%nat else nth j row C0.
Proof.
  revert j0 j. induction row as [|x row IH]; intros j0 j Hj; simpl in Hj; [lia|].
  destruct j as [|j]; simpl.
  - rewrite Nat.add_0_r. reflexivity.
  - rewrite IH by lia. rewrite Nat.add_succ_r. reflexivity.
Qed.

Lemma overwrite_rows_nth i0 r c src a k :
  (k < length a)%nat ->
  nth k (overwrite_rows i0 r c src a) [] =
  if (i0 + k <? r)%nat
  then overwrite_row O c (src (i0 + k)%nat) (nth k a [])
  else nth k a [].
Proof.
  revert i0 k. induction a as [|row a IH]; intros i0 k Hk; simpl in Hk; [lia|].
  destruct k as [|k]; simpl.
  - rewrite Nat.add_0_r. reflexivity.
  - rewrite IH by lia. rewrite Nat.add_succ_r. reflexivity.
Qed.

(** [a[:g, :g] = v] for a square [a] and a [g x g] value: the block is
    [v], the rest is [a]. *)
Lemma setitem_block_square a v n g :
  has_shape a n n -> has_shape v g g -> (1 <= g <= n)%nat ->
  exists a',
    setitem_block a g v = Some a' /\ has_shape a' n n /\
    forall k j, (k < n)%nat -> (j < n)%nat ->
      Diagnostics.entry a' k j =
      if ((k <? g) && (j <? g))%nat
      then Diagnostics.entry v k j else Diagnostics.entry a k j.
Proof.
  intros Ha Hv Hg.
  assert (Hna : ncols a = n) by (apply (ncols_shape a n n Ha); lia).
  assert (Hnv : ncols v = g) by (apply (ncols_shape v g g Hv); lia).
  assert (Hla : length a = n) by apply Ha.
  assert (Hlv : length v = g) by apply Hv.
  unfold setitem_block. rewrite Hna, Hnv, Hla, Hlv.
  replace (Nat.min g n) with g by lia.
  unfold broadcastable. rewrite Nat.eqb_refl. simpl.
  eexists. split; [reflexivity|].
  split; [apply overwrite_rows_shape, Ha|].
  intros k j Hk Hj. unfold Diagnostics.entry.
  rewrite overwrite_rows_nth by lia. simpl.
  destruct (Nat.ltb_spec k g) as [Hkg|Hkg]; [|reflexivity].
  rewrite overwrite_row_nth
    by (rewrite (has_shape_nth a n n k Ha Hk); exact Hj).
  simpl. destruct (Nat.ltb_spec j g) as [Hjg|Hjg]; [|reflexivity].
  unfold bindex. destruct (Nat.eqb_spec g 1) as [->|_]; [|reflexivity].
  assert (k = O) by lia. assert (j = O) by lia. subst. reflexivity.
Qed.

Lemma identity_entry n k j :
  (k < n)%nat -> (j < n)%nat -> Diagnostics.entry (identity n) k j = delta k j.
Proof.
  intros Hk Hj. unfold Diagnostics.entry, identity.
  rewrite in_ket_row by exact Hk. rewrite basis_state_nth. unfold delta.
  destruct (Nat.ltb_spec k n); [|lia]. rewrite andb_true_r. reflexivity.
Qed.

Lemma matrix_ext (A B : matrix) r c :
  has_shape A r c -> has_shape B r c ->
  (forall k j, (k < r)%nat -> (j < c)%nat ->
     Diagnostics.entry A k j = Diagnostics.entry B k j) ->
  A = B.
Proof.
  intros HA HB H. apply (nth_ext _ _ [] []).
  - destruct HA as [-> _], HB as [-> _]. reflexivity.
  - intros k Hk. assert (Hk' : (k < r)%nat) by (destruct HA as [<- _]; exact Hk).
    apply (nth_ext _ _ C0 C0).
    + rewrite (has_shape_nth A r c k HA Hk'), (has_shape_nth B r c k HB Hk').
      reflexivity.
    + intros j Hj. rewrite (has_shape_nth A r c k HA Hk') in Hj.
      apply (H k j Hk' Hj).
Qed.

Lemma icsum_split n d f :
  icsum (n + d) f = Cadd (icsum n f) (icsum d (fun k => f (n + k)%nat)).
Proof.
  induction d as [|d IH].
  - rewrite Nat.add_0_r. simpl. symmetry. apply Cadd_0_r.
  - rewrite Nat.add_succ_r. simpl. rewrite IH. symmetry. apply Cadd_assoc.
Qed.

Lemma delta_sym i j : delta i j = delta j i.
Proof. unfold delta. rewrite Nat.eqb_sym. reflexivity. Qed.

Lemma delta_neq i j : i <> j -> delta i j = C0.
Proof. unfold delta. intros H. destruct (Nat.eqb_spec i j); [contradiction | reflexivity]. Qed.

(** A unitary block completed by the identity is unitary on all levels. *)
Lemma block_embedding_unitary g n V T :
  (g <= n)%nat -> Diagnostics.unitary g V -> has_shape T n n ->
  (forall k j, (k < n)%nat -> (j < n)%nat ->
     Diagnostics.entry T k j =
     if ((k <? g) && (j <? g))%nat then Diagnostics.entry V k j else delta k j) ->
  Diagnostics.unitary n T.
Proof.
  intros Hg [_ HV] HT HE. split; [exact HT|].
  intros i j Hi Hj.
  replace n with (g + (n - g))%nat at 1 by lia. rewrite icsum_split.
  destruct (Nat.ltb_spec i g) as [Hig|Hig], (Nat.ltb_spec j g) as [Hjg|Hjg].
  - rewrite (icsum_ext g _
       (fun k => Cmul (Cconj (Diagnostics.entry V k i)) (Diagnostics.entry V k j))).
    2:{ intros k Hk. rewrite !HE by lia.
        destruct (Nat.ltb_spec k g), (Nat.ltb_spec i g), (Nat.ltb_spec j g);
          try lia. reflexivity. }
    rewrite (icsum_ext (n - g) _ (fun _ => C0)).
    2:{ intros k Hk. rewrite (HE (g + k)%nat i) by lia.
        destruct (Nat.ltb_spec (g + k) g); [lia|]. simpl.
        rewrite delta_neq by lia. csimp. }
    rewrite icsum_const_0, Cadd_0_r. apply HV; assumption.
  - rewrite (icsum_ext g _ (fun _ => C0)).
    2:{ intros k Hk. rewrite (HE k j) by lia.
        destruct (Nat.ltb_spec j g); [lia|]. rewrite andb_false_r.
        rewrite delta_neq by lia. apply Cmul_0_r. }
    rewrite (icsum_ext (n - g) _ (fun _ => C0)).
    2:{ intros k Hk. rewrite (HE (g + k)%nat i) by lia.
        destruct (Nat.ltb_spec (g + k) g); [lia|]. simpl.
        rewrite delta_neq by lia. csimp. }
    rewrite !icsum_const_0, Cadd_0_r.
    destruct (Nat.eqb_spec i j); [lia | reflexivity].
  - rewrite (icsum_ext g _ (fun _ => C0)).
    2:{ intros k Hk. rewrite (HE k i) by lia.
        destruct (Nat.ltb_spec i g); [lia|]. rewrite andb_false_r.
        rewrite delta_neq by lia. csimp. }
    rewrite (icsum_ext (n - g) _ (fun _ => C0)).
    2:{ intros k Hk. rewrite (HE (g + k)%nat j) by lia.
        destruct (Nat.ltb_spec (g + k) g); [lia|]. simpl.
        rewrite delta_neq by lia. apply Cmul_0_r. }
    rewrite !icsum_const_0, Cadd_0_r.
    destruct (Nat.eqb_spec i j); [lia | reflexivity].
  - rewrite (icsum_ext g _ (fun _ => C0)).
    2:{ intros k Hk. rewrite (HE k i) by lia.
        destruct (Nat.ltb_spec i g); [lia|]. rewrite andb_false_r.
        rewrite delta_neq by lia. csimp. }
    rewrite (icsum_ext (n - g) _
       (fun k => Cmul (if (i - g =? k)%nat then C1 else C0) (delta (g + k) j))).
    2:{ intros k Hk. rewrite (HE (g + k)%nat i), (HE (g + k)%nat j) by lia.
        destruct (Nat.ltb_spec (g + k) g); [lia|]. simpl.
        f_equal. unfold delta.
        destruct (Nat.eqb_spec (g + k) i), (Nat.eqb_spec (i - g) k);
          try lia; csimp. }
    rewrite icsum_delta by lia. rewrite icsum_const_0, Cadd_0_l.
    replace (g + (i - g))%nat with i by lia. reflexivity.
Qed.

(** Cell 10 with [gate_cutoff = 4 <= cutoff]: the value and its entries. *)
Lemma target_unitary_entries ri (c : Notebook.Config) :
  has_shape (ri 4%nat) 4 4 ->
  Notebook.gate_cutoff c = 4%nat -> (4 <= Notebook.cutoff c)%nat ->
  exists T,
    Notebook.target_unitary ri c = Some T /\
    has_shape T (Notebook.cutoff c) (Notebook.cutoff c) /\
    forall k j, (k < Notebook.cutoff c)%nat -> (j < Notebook.cutoff c)%nat ->
      Diagnostics.entry T k j =
      if ((k <? 4) && (j <? 4))%nat
      then Diagnostics.entry (ri 4%nat) k j else delta k j.
Proof.
  intros Hri Hg Hc. unfold Notebook.target_unitary. rewrite Hg.
  destruct (setitem_block_square (identity (Notebook.cutoff c)) (ri 4%nat)
              (Notebook.cutoff c) 4 (identity_shape _) Hri)
    as (T & HT & Hs & HE); [lia|].
  exists T. split; [exact HT|]. split; [exact Hs|].
  intros k j Hk Hj. rewrite (HE k j Hk Hj), identity_entry by assumption.
  reflexivity.
Qed.

(** X3. With [gate_cutoff = 4 <= cutoff] cell 10 succeeds: the target is a
    [cutoff x cutoff] matrix whose leading [4 x 4] block is the random
    unitary and which is the identity elsewhere; the slice of cell 16 gives
    the random unitary back. *)
Theorem target_unitary_embedding (ri : nat -> matrix) (c : Notebook.Config) :
  has_shape (ri 4%nat) 4 4 ->
  Notebook.gate_cutoff c = 4%nat -> (4 <= Notebook.cutoff c)%nat ->
  exists T,
    Notebook.target_unitary ri c = Some T /\
    has_shape T (Notebook.cutoff c) (Notebook.cutoff c) /\
    (forall k j, (k < Notebook.cutoff c)%nat -> (j < Notebook.cutoff c)%nat ->
       Diagnostics.entry T k j =
       if ((k <? 4) && (j <? 4))%nat
       then Diagnostics.entry (ri 4%nat) k j else delta k j) /\
    Diagnostics.target_block T (Notebook.gate_cutoff c) = ri 4%nat.
Proof.
  intros Hri Hg Hc.
  destruct (target_unitary_entries ri c Hri Hg Hc) as (T & HT & Hs & HE).
  exists T. split; [exact HT|]. split; [exact Hs|]. split; [exact HE|].
  rewrite Hg. apply (matrix_ext _ _ 4 4).
  - apply (target_block_shape T 4 (Notebook.cutoff c)); assumption.
  - exact Hri.
  - intros k j Hk Hj. unfold Diagnostics.target_block.
    rewrite slice2_entry by assumption. rewrite HE by lia.
    destruct (Nat.ltb_spec k 4), (Nat.ltb_spec j 4); try lia. reflexivity.
Qed.

Lemma target_unitary_embedding_witness :
  exists T,
    Notebook.target_unitary identity
      (Notebook.mkConfig 10 4 25 1000 (1 / 10) (1 / 1000)) = Some T /\
    has_shape T 10 10 /\
    (forall k j, (k < 10)%nat -> (j < 10)%nat ->
       Diagnostics.entry T k j =
       if ((k <? 4) && (j <? 4))%nat
       then Diagnostics.entry (identity 4) k j else delta k j) /\
    Diagnostics.target_block T 4 = identity 4.
Proof.
  apply (target_unitary_embedding identity
           (Notebook.mkConfig 10 4 25 1000 (1 / 10) (1 / 1000))).
  - apply identity_shape.
  - reflexivity.
  - simpl. lia.
Defined.

(** X4. If the random unitary is unitary on four levels, the target of
    cell 10 is unitary on all [cutoff] levels. *)
Theorem target_unitary_is_unitary (ri : nat -> matrix) (c : Notebook.Config) :
  Diagnostics.unitary 4 (ri 4%nat) ->
  Notebook.gate_cutoff c = 4%nat -> (4 <= Notebook.cutoff c)%nat ->
  exists T,
    Notebook.target_unitary ri c = Some T /\
    Diagnostics.unitary (Notebook.cutoff c) T.
Proof.
  intros HU Hg Hc.
  destruct (target_unitary_entries ri c (proj1 HU) Hg Hc) as (T & HT & Hs & HE).
  exists T. split; [exact HT|].
  apply (block_embedding_unitary 4 (Notebook.cutoff c) (ri 4%nat) T);
    assumption.
Qed.

Lemma identity_unitary n : Diagnostics.unitary n (identity n).
Proof.
  split; [apply identity_shape|]. intros i j Hi Hj.
  rewrite (icsum_ext n _
             (fun k => Cmul (if (i =? k)%nat then C1 else C0) (delta k j))).
  - rewrite icsum_delta by exact Hi. reflexivity.
  - intros k Hk. rewrite !identity_entry by assumption.
    f_equal. unfold delta. rewrite (Nat.eqb_sym k i).
    destruct (i =? k)%nat; csimp.
Qed.

Lemma target_unitary_is_unitary_witness :
  exists T,
    Notebook.target_unitary identity
      (Notebook.mkConfig 10 4 25 1000 (1 / 10) (1 / 1000)) = Some T /\
    Diagnostics.unitary 10 T.
Proof.
  apply (target_unitary_is_unitary identity
           (Notebook.mkConfig 10 4 25 1000 (1 / 10) (1 / 1000))).
  - apply identity_unitary.
  - reflexivity.
  - simpl. lia.
Defined.

(** X5. With [gate_cutoff = 4 <= cutoff] and a unitary random block, cell
    11 extracts four target kets of [cutoff] amplitudes; ket [i] is column
    [i] of the random unitary on the first four levels, has no amplitude at
    the levels from [4] on, and has norm [1]. *)
Theorem target_kets_states (ri : nat -> matrix) (c : Notebook.Config) :
  Diagnostics.unitary 4 (ri 4%nat) ->
  Notebook.gate_cutoff c = 4%nat -> (4 <= Notebook.cutoff c)%nat ->
  exists T tk,
    Notebook.target_unitary ri c = Some T /\
    Notebook.target_kets c T = Some tk /\
    has_shape tk 4 (Notebook.cutoff c) /\
    forall i, (i < 4)%nat ->
      (forall k, (k < Notebook.cutoff c)%nat ->
         nth k (nth i tk []) C0 =
         if (k <? 4)%nat then Diagnostics.entry (ri 4%nat) k i else C0) /\
      Diagnostics.norm2 (nth i tk []) = 1.
Proof.
  intros HU Hg Hc.
  destruct (target_unitary_entries ri c (proj1 HU) Hg Hc) as (T & HT & Hs & HE).
  destruct (columns_in_range T (arange 4) (Notebook.cutoff c)
              (Notebook.cutoff c) Hs) as (tk & Htk & Htks).
  { lia. }
  { apply Forall_forall. intros i Hi. unfold arange in Hi.
    apply in_seq in Hi. lia. }
  change (length (arange 4)) with 4%nat in Htks.
  exists T, tk. split; [exact HT|].
  split; [unfold Notebook.target_kets; rewrite Hg; exact Htk|].
  split; [exact Htks|].
  intros i Hi.
  assert (Hamp : forall k, (k < Notebook.cutoff c)%nat ->
            nth k (nth i tk []) C0 =
            if (k <? 4)%nat then Diagnostics.entry (ri 4%nat) k i else C0).
  { intros k Hk.
    rewrite (columns_nth T (arange 4) tk i Htk) by (simpl; lia).
    unfold arange. rewrite seq_nth by exact Hi. simpl Nat.add.
    rewrite (nth_map_rows (fun row => nth i row C0))
      by (destruct Hs as [-> _]; exact Hk).
    change (nth i (nth k T []) C0) with (Diagnostics.entry T k i).
    rewrite HE by lia.
    destruct (Nat.ltb_spec i 4); [|lia]. rewrite andb_true_r.
    destruct (Nat.ltb_spec k 4); [reflexivity|].
    apply delta_neq. lia. }
  split; [exact Hamp|].
  rewrite norm2_isum, (has_shape_nth tk 4 (Notebook.cutoff c) i Htks Hi).
  replace (Notebook.cutoff c) with (4 + (Notebook.cutoff c - 4))%nat at 1 by lia.
  rewrite isum_split.
  rewrite (isum_ext 4 _ (fun k => Cnorm2 (Diagnostics.entry (ri 4%nat) k i))).
  2:{ intros k Hk. rewrite Hamp by lia.
      destruct (Nat.ltb_spec k 4); [reflexivity | lia]. }
  rewrite (isum_ext (Notebook.cutoff c - 4) _ (fun _ => 0)).
  2:{ intros k Hk. rewrite Hamp by lia.
      destruct (Nat.ltb_spec (4 + k) 4); [lia|]. unfold Cnorm2. simpl. ring. }
  rewrite isum_const_0.
  change (isum 4 (fun k => Cnorm2 (Diagnostics.entry (ri 4%nat) k i)))
    with (Diagnostics.col_norm2 (ri 4%nat) 4 i).
  rewrite (unitary_col_norm 4 (ri 4%nat) i HU Hi). ring.
Qed.

Lemma target_kets_states_witness :
  exists T tk,
    Notebook.target_unitary identity
      (Notebook.mkConfig 10 4 25 1000 (1 / 10) (1 / 1000)) = Some T /\
    Notebook.target_kets (Notebook.mkConfig 10 4 25 1000 (1 / 10) (1 / 1000)) T
    = Some tk /\
    has_shape tk 4 10 /\
    forall i, (i < 4)%nat ->
      (forall k, (k < 10)%nat ->
         nth k (nth i tk []) C0 =
         if (k <? 4)%nat then Diagnostics.entry (identity 4) k i else C0) /\
      Diagnostics.norm2 (nth i tk []) = 1.
Proof.
  apply (target_kets_states identity
           (Notebook.mkConfig 10 4 25 1000 (1 / 10) (1 / 1000))).
  - apply identity_unitary.
  - reflexivity.
  - simpl. lia.
Defined.

(** ** Cell 11: overlaps and cost between normalised states *)

Lemma evaluate_value g c out tgt :
  has_shape out g c -> has_shape tgt g c ->
  exists ov,
    Cost.evaluate out tgt = Some (Cost.cost ov, ov) /\
    length ov = g /\
    forall i, (i < g)%nat ->
      nth i ov 0 =
      Re (Csum (zip_mul (map Cconj (nth i tgt [])) (nth i out []))).
Proof.
  intros Hout Htgt.
  pose proof (has_shape_conj2 _ _ _ Htgt) as Hc.
  unfold Cost.evaluate, Cost.overlaps, einsum_bi_bi_b.
  rewrite (same_shape_of_shapes _ _ _ _ Hc Hout). simpl.
  assert (Hlen : length (conj2 tgt) = length out)
    by (destruct Hc as [-> _], Hout as [-> _]; reflexivity).
  assert (Hg : length (conj2 tgt) = g) by apply Hc.
  eexists. split; [reflexivity|]. split.
  - unfold real1. rewrite length_map, einsum_rows_length; assumption.
  - intros i Hi. unfold real1. change 0 with (Re C0). rewrite map_nth.
    rewrite einsum_rows_nth by lia. unfold conj2.
    change (@nil complex) with (map Cconj []) at 1. rewrite map_nth.
    reflexivity.
Qed.

Lemma cost_below_one ov :
  Forall (fun o => o <= 1) ov ->
  Cost.cost ov = INR (length ov) - reduce_sum ov.
Proof.
  unfold Cost.cost. induction 1 as [|o l Ho _ IH].
  - simpl. ring.
  - cbn [map reduce_sum fold_right length]. fold (reduce_sum l).
    fold (reduce_sum (map (fun o => Rabs (o - 1)) l)).
    rewrite IH, S_INR. rewrite Rabs_left1 by lra. ring.
Qed.

Lemma Re_bounded_by_norm2 z : Cnorm2 z <= 1 -> -1 <= Re z <= 1.
Proof. unfold Cnorm2. intros H. split; nra. Qed.

(** X6. When every target ket and every output state has norm at most [1],
    each overlap lies in [[-1, 1]], so the cost is [gate_cutoff] minus the
    sum of the overlaps, that is [gate_cutoff * (1 - mean_overlap)], and it
    lies between [0] and [2 * gate_cutoff]. *)
Theorem overlaps_bounded_cost_from_mean (gate_cutoff cutoff : nat)
  (ket target_kets : matrix) :
  has_shape ket gate_cutoff cutoff ->
  has_shape target_kets gate_cutoff cutoff ->
  (forall i, (i < gate_cutoff)%nat ->
     Diagnostics.norm2 (nth i target_kets []) <= 1) ->
  (forall i, (i < gate_cutoff)%nat -> Diagnostics.norm2 (nth i ket []) <= 1) ->
  exists cost ov,
    Cost.evaluate ket target_kets = Some (cost, ov) /\
    (forall i, (i < gate_cutoff)%nat -> -1 <= nth i ov 0 <= 1) /\
    cost = INR gate_cutoff - reduce_sum ov /\
    cost = INR gate_cutoff * (1 - Cost.mean_overlap ov) /\
    0 <= cost <= 2 * INR gate_cutoff.
Proof.
  intros Hk Ht Hnt Hnk.
  destruct (evaluate_value gate_cutoff cutoff ket target_kets Hk Ht)
    as (ov & Hev & Hlen & Hov).
  exists (Cost.cost ov), ov. split; [exact Hev|].
  assert (Hb : forall i, (i < gate_cutoff)%nat -> -1 <= nth i ov 0 <= 1).
  { intros i Hi. rewrite (Hov i Hi). apply Re_bounded_by_norm2.
    eapply Rle_trans; [apply cauchy_schwarz|].
    - rewrite (has_shape_nth _ _ _ i Ht Hi), (has_shape_nth _ _ _ i Hk Hi).
      reflexivity.
    - pose proof (norm2_nonneg (nth i target_kets [])).
      pose proof (norm2_nonneg (nth i ket [])).
      specialize (Hnt i Hi). specialize (Hnk i Hi). nra. }
  split; [exact Hb|].
  assert (Hle : Forall (fun o => o <= 1) ov).
  { apply Forall_forall. intros o Hin.
    destruct (In_nth ov o 0 Hin) as (i & Hi & <-). apply Hb. lia. }
  assert (Hcost : Cost.cost ov = INR gate_cutoff - reduce_sum ov)
    by (rewrite (cost_below_one ov Hle), Hlen; reflexivity).
  split; [exact Hcost|].
  assert (Hsum : - INR gate_cutoff <= reduce_sum ov <= INR gate_cutoff).
  { rewrite reduce_sum_isum, Hlen.
    assert (H1 : isum gate_cutoff (fun _ => -1)
                 <= isum gate_cutoff (fun i => nth i ov 0))
      by (apply isum_le; intros i Hi; apply Hb; exact Hi).
    assert (H2 : isum gate_cutoff (fun i => nth i ov 0)
                 <= isum gate_cutoff (fun _ => 1))
      by (apply isum_le; intros i Hi; apply Hb; exact Hi).
    rewrite isum_const in H1, H2. lra. }
  split; [|lra].
  rewrite Hcost. unfold Cost.mean_overlap, mean. rewrite Hlen.
  destruct gate_cutoff as [|g].
  - simpl in *. destruct ov; [simpl; ring | discriminate].
  - field. apply not_0_INR. lia.
Qed.

Lemma overlaps_bounded_cost_from_mean_witness :
  exists cost ov,
    Cost.evaluate [[C1; C0]; [C0; C0]] [[C1; C0]; [C0; C1]] = Some (cost, ov) /\
    (forall i, (i < 2)%nat -> -1 <= nth i ov 0 <= 1) /\
    cost = INR 2 - reduce_sum ov /\
    cost = INR 2 * (1 - Cost.mean_overlap ov) /\
    0 <= cost <= 2 * INR 2.
Proof.
  apply (overlaps_bounded_cost_from_mean 2 2).
  - split; [reflexivity | repeat constructor].
  - split; [reflexivity | repeat constructor].
  - intros [|[|i]] Hi; try lia; unfold Diagnostics.norm2, Cnorm2; simpl; lra.
  - intros [|[|i]] Hi; try lia; unfold Diagnostics.norm2, Cnorm2; simpl; lra.
Defined.

Lemma vdot_phased theta (t : vector) :
  Csum (zip_mul (map Cconj t) (Diagnostics.phased theta t)) =
  Cmul (Cexp_i theta) (RtoC (Diagnostics.norm2 t)).
Proof.
  unfold Diagnostics.phased, Diagnostics.norm2.
  induction t as [|x t IH]; [simpl; csimp|].
  cbn [map zip_mul Csum fold_right reduce_sum].
  fold (Csum (zip_mul (map Cconj t) (map (Cmul (Cexp_i theta)) t))).
  fold (reduce_sum (map Cnorm2 t)).
  rewrite IH. unfold Cnorm2. csimp.
Qed.

(** X7. The cost sees a global phase: if every output state is its
    target ket of norm [1] times [e^{i theta}], every overlap is
    [cos theta] and the cost is [gate_cutoff * (1 - cos theta)]; it is [0]
    when [theta = 0]. *)
Theorem cost_of_global_phase (gate_cutoff cutoff : nat) (target_kets : matrix)
  (theta : R) :
  has_shape target_kets gate_cutoff cutoff ->
  (forall i, (i < gate_cutoff)%nat ->
     Diagnostics.norm2 (nth i target_kets []) = 1) ->
  exists cost ov,
    Cost.evaluate (map (Diagnostics.phased theta) target_kets) target_kets
    = Some (cost, ov) /\
    (forall i, (i < gate_cutoff)%nat -> nth i ov 0 = cos theta) /\
    cost = INR gate_cutoff * (1 - cos theta) /\
    (theta = 0 -> cost = 0).
Proof.
  intros Ht Hn.
  assert (Hk : has_shape (map (Diagnostics.phased theta) target_kets)
                 gate_cutoff cutoff).
  { destruct Ht as [Hl Hf]. split; [rewrite length_map; exact Hl|].
    rewrite Forall_map. eapply Forall_impl; [|exact Hf].
    simpl. intros r Hr. unfold Diagnostics.phased. rewrite length_map. exact Hr. }
  destruct (evaluate_value gate_cutoff cutoff _ target_kets Hk Ht)
    as (ov & Hev & Hlen & Hov).
  exists (Cost.cost ov), ov. split; [exact Hev|].
  assert (Hcos : forall i, (i < gate_cutoff)%nat -> nth i ov 0 = cos theta).
  { intros i Hi. rewrite (Hov i Hi).
    rewrite (nth_map_rows (Diagnostics.phased theta))
      by (destruct Ht as [-> _]; exact Hi).
    rewrite vdot_phased, (Hn i Hi). simpl. ring. }
  split; [exact Hcos|].
  assert (Hcost : Cost.cost ov = INR gate_cutoff * (1 - cos theta)).
  { unfold Cost.cost. rewrite (reduce_sum_map_isum _ 0), Hlen.
    rewrite (isum_ext gate_cutoff _ (fun _ => 1 - cos theta)).
    - apply isum_const.
    - intros i Hi. rewrite (Hcos i Hi).
      pose proof (COS_bound theta) as [_ Hc]. rewrite Rabs_left1 by lra. ring. }
  split; [exact Hcost|].
  intros ->. rewrite Hcost, cos_0. ring.
Qed.

Lemma cost_of_global_phase_witness :
  exists cost ov,
    Cost.evaluate (map (Diagnostics.phased (PI / 2)) [[C1; C0]; [C0; C1]])
      [[C1; C0]; [C0; C1]] = Some (cost, ov) /\
    (forall i, (i < 2)%nat -> nth i ov 0 = cos (PI / 2)) /\
    cost = INR 2 * (1 - cos (PI / 2)) /\
    (PI / 2 = 0 -> cost = 0).
Proof.
  apply (cost_of_global_phase 2 2).
  - split; [reflexivity | repeat constructor].
  - intros [|[|i]] Hi; try lia; unfold Diagnostics.norm2, Cnorm2; simpl; lra.
Defined.

Lemma same_shape_true a b :
  same_shape a b = true ->
  length a = length b /\ length (nth 0 a []) = length (nth 0 b []).
Proof.
  destruct a as [|ra a], b as [|rb b]; simpl; try discriminate.
  - intros _. split; reflexivity.
  - intros H. apply andb_true_iff in H. destruct H as [Hr Hs].
    apply Nat.eqb_eq in Hr. split; [|exact Hr].
    f_equal. revert b Hs. induction a as [|x a IH]; intros [|y b] Hs;
      simpl in Hs; try discriminate; [reflexivity|].
    apply andb_true_iff in Hs. simpl. f_equal. apply IH, Hs.
Qed.

(** X8. The overlaps are only defined between batches of one shape: when
    the output batch and the target batch (each with at least one state)
    differ in the number of states or in the dimension, the evaluation
    raises. *)
Theorem evaluate_shape_mismatch (g c g' c' : nat) (ket target_kets : matrix) :
  has_shape ket g c -> has_shape target_kets g' c' ->
  (0 < g)%nat -> (0 < g')%nat ->
  g <> g' \/ c <> c' ->
  Cost.evaluate ket target_kets = None.
Proof.
  intros Hk Ht Hg Hg' Hne.
  pose proof (has_shape_conj2 _ _ _ Ht) as Hc.
  unfold Cost.evaluate, Cost.overlaps, einsum_bi_bi_b.
  destruct (same_shape (conj2 target_kets) ket) eqn:E; [|reflexivity].
  exfalso. apply same_shape_true in E. destruct E as [El Er].
  rewrite (has_shape_nth _ g' c' 0 Hc Hg'), (has_shape_nth _ g c 0 Hk Hg) in Er.
  destruct Hc as [Hlc _], Hk as [Hlk _]. rewrite Hlc, Hlk in El.
  destruct Hne as [H|H]; apply H; congruence.
Qed.

Lemma evaluate_shape_mismatch_witness :
  Cost.evaluate [[C1; C0]; [C0; C1]] [[C1; C0; C0]; [C0; C1; C0]] = None.
Proof.
  apply (evaluate_shape_mismatch 2 2 2 3);
    try (split; [reflexivity | repeat constructor]); try lia.
Defined.

(** ** Cell 13: what the loop prints and what it leaves bound *)

Lemma last_default_irrelevant {A : Type} (a d d' : A) l :
  last (a :: l) d = last (a :: l) d'.
Proof.
  revert a. induction l as [|b l IH]; intros a; [reflexivity|].
  change (last (b :: l) d = last (b :: l) d'). apply IH.
Qed.

Lemma last_cons_default {A : Type} (a d : A) l : last (a :: l) d = last l a.
Proof.
  destruct l as [|b l]; [reflexivity|].
  change (last (b :: l) d = last (b :: l) a). apply last_default_irrelevant.
Qed.

Lemma last_map_Some {A : Type} (l : list A) (d : option A) :
  l <> [] -> last (map Some l) d = nth_error l (length l - 1).
Proof.
  induction l as [|a l IH]; intros Hne; [contradiction|].
  destruct l as [|b l]; [reflexivity|].
  change (last (map Some (b :: l)) d
          = nth_error (a :: b :: l) (length (a :: b :: l) - 1)).
  rewrite IH by discriminate.
  cbn [length]. rewrite !Nat.sub_succ, !Nat.sub_0_r. reflexivity.
Qed.

Lemma filter_combine_fst {A : Type} (p : Z -> bool) idx (fs : list A) :
  length fs = length idx ->
  map fst (filter (fun x => p (fst x)) (combine idx fs)) = filter p idx.
Proof.
  revert fs. induction idx as [|i idx IH]; intros [|f fs] H; simpl in *;
    try discriminate; [reflexivity|].
  destruct (p i); simpl; rewrite IH by lia; reflexivity.
Qed.

Section LoopOutput.

Import Driver.

Variable Session : Type.
Variable session_run : Session -> option (Session * Fetch).

Hypothesis session_run_returns : forall s, session_run s <> None.

(** The loop invariant for the printed lines and the last fetched values. *)
Lemma for_loop_output idx s pr :
  exists s' pr' fs,
    for_loop Session session_run idx (s, pr) = Some (s', pr') /\
    length fs = length idx /\
    (forall k, (k < length idx)%nat ->
       fetch_at Session session_run k s = nth_error fs k) /\
    printed pr' =
    printed pr ++
    map (fun x => (fst x, cost_val (snd x), mean (overlaps_val (snd x))))
        (filter (fun x => (fst x mod 100 =? 0)%Z) (combine idx fs)) /\
    last_fetch pr' = last (map Some fs) (last_fetch pr).
Proof.
  revert s pr. induction idx as [|i idx IH]; intros s pr.
  - exists s, pr, []. simpl. rewrite app_nil_r.
    repeat split; try reflexivity. intros k Hk. lia.
  - destruct (session_run s) as [[s1 f]|] eqn:Hrun;
      [|exfalso; exact (session_run_returns s Hrun)].
    cbn [for_loop]. unfold body at 1. cbn [fst snd]. rewrite Hrun.
    match goal with
    | |- context [for_loop _ _ idx (s1, ?p)] =>
        destruct (IH s1 p) as (s' & pr' & fs & Hl & Hlen & Hf & Hp & Hlast)
    end.
    exists s', pr', (f :: fs). cbn [length].
    split; [exact Hl|]. split; [congruence|]. split; [|split].
    + intros [|k] Hk.
      * unfold fetch_at. simpl. rewrite Hrun. reflexivity.
      * rewrite (fetch_at_step Session session_run k s s1 f Hrun). simpl.
        apply Hf. lia.
    + cbn [printed] in Hp. rewrite Hp. cbn [combine filter fst snd].
      destruct (i mod 100 =? 0)%Z.
      * cbn [map fst snd]. rewrite <- app_assoc. reflexivity.
      * reflexivity.
    + cbn [last_fetch] in Hlast. rewrite Hlast.
      cbn [map]. rewrite last_cons_default. reflexivity.
Qed.

End LoopOutput.

(** X9. For a [session.run] that returns, the loop prints one line for
    each iteration index that is a multiple of [100], and no other, in
    increasing order; the line of index [i] shows the cost and the mean
    of the overlaps fetched by iteration [i]. *)
Theorem optimise_printed (Session : Type)
  (session_run : Session -> option (Session * Driver.Fetch))
  (reps : Z) (s0 : Session) :
  (forall s, session_run s <> None) ->
  exists s pr fs,
    Driver.optimise Session session_run reps s0 = Some (s, pr) /\
    length fs = Z.to_nat reps /\
    (forall k, (k < Z.to_nat reps)%nat ->
       Driver.fetch_at Session session_run k s0 = nth_error fs k) /\
    Driver.printed pr =
    map (fun x => (fst x, Driver.cost_val (snd x),
                   mean (Driver.overlaps_val (snd x))))
        (filter (fun x => (fst x mod 100 =? 0)%Z)
                (combine (Driver.range reps) fs)) /\
    map (fun line => fst (fst line)) (Driver.printed pr) =
    filter (fun i => (i mod 100 =? 0)%Z) (Driver.range reps).
Proof.
  intros Hret. unfold Driver.optimise.
  destruct (for_loop_output Session session_run Hret (Driver.range reps) s0
              Driver.start)
    as (s & pr & fs & Hl & Hlen & Hf & Hp & _).
  rewrite range_length in Hlen, Hf. simpl in Hp.
  exists s, pr, fs. split; [exact Hl|]. split; [exact Hlen|].
  split; [exact Hf|]. split; [exact Hp|].
  rewrite Hp, map_map. cbn [fst].
  rewrite <- (filter_combine_fst (fun i => (i mod 100 =? 0)%Z)
                (Driver.range reps) fs)
    by (rewrite range_length; exact Hlen).
  reflexivity.
Qed.

Lemma optimise_printed_witness :
  exists s pr,
    Driver.optimise nat (fun s => Some (S s, Driver.mkFetch (INR s) [] [] []))
      250 0%nat = Some (s, pr) /\
    map (fun line => fst (fst line)) (Driver.printed pr) = [0; 100; 200]%Z.
Proof.
  destruct (optimise_printed nat
              (fun s => Some (S s, Driver.mkFetch (INR s) [] [] [])) 250 0%nat)
    as (s & pr & fs & H1 & _ & _ & _ & H2).
  - intros s H. discriminate H.
  - exists s, pr. split; [exact H1|]. rewrite H2. vm_compute. reflexivity.
Defined.

(** X10. What cell 16 finds in [ket_val]: after a loop of [reps >= 1]
    iterations the values left bound are those fetched by the last
    iteration, of index [reps - 1]; with [reps <= 0] the loop body never
    runs, the histories stay empty and nothing is bound. *)
Theorem optimise_last_fetch (Session : Type)
  (session_run : Session -> option (Session * Driver.Fetch))
  (reps : Z) (s0 : Session) :
  (forall s, session_run s <> None) ->
  ((reps <= 0)%Z ->
     Driver.optimise Session session_run reps s0 = Some (s0, Driver.start) /\
     Driver.last_fetch Driver.start = None) /\
  ((1 <= reps)%Z ->
     exists s pr f,
       Driver.optimise Session session_run reps s0 = Some (s, pr) /\
       Driver.last_fetch pr = Some f /\
       Driver.fetch_at Session session_run (Z.to_nat reps - 1) s0 = Some f).
Proof.
  intros Hret. split.
  - intros Hle. unfold Driver.optimise, Driver.range.
    replace (Z.to_nat reps) with O by lia. split; reflexivity.
  - intros Hge. unfold Driver.optimise.
    destruct (for_loop_output Session session_run Hret (Driver.range reps) s0
                Driver.start)
      as (s & pr & fs & Hl & Hlen & Hf & _ & Hlast).
    rewrite range_length in Hlen, Hf. simpl in Hlast.
    assert (Hne : fs <> []) by (intros ->; simpl in Hlen; lia).
    rewrite (last_map_Some fs None Hne), Hlen in Hlast.
    rewrite <- (Hf (Z.to_nat reps - 1)%nat) in Hlast by lia.
    destruct (Driver.fetch_at Session session_run (Z.to_nat reps - 1) s0)
      as [f|] eqn:Ef.
    + exists s, pr, f. repeat split; assumption.
    + exfalso. rewrite (Hf (Z.to_nat reps - 1)%nat) in Ef by lia.
      apply nth_error_None in Ef. lia.
Qed.

Lemma optimise_last_fetch_witness :
  exists s pr f,
    Driver.optimise nat (fun s => Some (S s, Driver.mkFetch (INR s) [] [] []))
      3 0%nat = Some (s, pr) /\
    Driver.last_fetch pr = Some f /\
    Driver.fetch_at nat (fun s => Some (S s, Driver.mkFetch (INR s) [] [] []))
      (Z.to_nat 3 - 1) 0%nat = Some f.
Proof.
  apply (optimise_last_fetch nat
           (fun s => Some (S s, Driver.mkFetch (INR s) [] [] [])) 3 0%nat).
  - intros s H. discriminate H.
  - lia.
Defined.

(** ** Cells 10 and 11: the sizes the run accepts *)

(** X11. The random unitary of cell 10 is always [4 x 4]: whenever
    [gate_cutoff] is not [4], or [cutoff] is below [4], the run raises
    before the loop (in the slice assignment of cell 10 or the column index
    of cell 11), also for sizes such as [gate_cutoff = 5 <= cutoff]. *)
Theorem run_needs_gate_cutoff_four (draws : Family -> nat -> R)
  (random_interferometer : nat -> matrix) (Slots : Type) (slots0 : Slots)
  (min_cost : Program -> matrix ->
              GateParameterSet * Slots -> GateParameterSet * Slots)
  (c : Notebook.Config) :
  has_shape (random_interferometer 4%nat) 4 4 ->
  Notebook.gate_cutoff c <> 4%nat \/ (Notebook.cutoff c < 4)%nat ->
  exists stage,
    Notebook.run draws random_interferometer Slots slots0 min_cost c
    = Notebook.Failed stage.
Proof.
  intros Hri Hbad.
  destruct (Nat.lt_ge_cases (Notebook.cutoff c) (Notebook.gate_cutoff c))
    as [Hlt|Hge]; [apply run_fails_before_loop; exact Hlt|].
  assert (Hg : Notebook.gate_cutoff c <> 4%nat) by lia.
  exists Notebook.AtTarget. unfold Notebook.run. rewrite build_program.
  unfold Notebook.target_unitary, setitem_block.
  destruct (identity_shape (Notebook.cutoff c)) as [Hl _]. rewrite Hl.
  destruct Hri as [Hlv _]. rewrite Hlv.
  replace (Nat.min (Notebook.gate_cutoff c) (Notebook.cutoff c))
    with (Notebook.gate_cutoff c) by lia.
  unfold broadcastable at 1.
  destruct (Nat.eqb_spec 4 (Notebook.gate_cutoff c)) as [E|_]; [lia|].
  reflexivity.
Qed.

Lemma run_needs_gate_cutoff_four_witness :
  exists stage,
    Notebook.run (fun _ _ => 0) identity unit tt (fun _ _ s => s)
      (Notebook.mkConfig 10 5 25 1000 (1 / 10) (1 / 1000))
    = Notebook.Failed stage.
Proof.
  apply (run_needs_gate_cutoff_four (fun _ _ => 0) identity unit tt
           (fun _ _ s => s)
           (Notebook.mkConfig 10 5 25 1000 (1 / 10) (1 / 1000))).
  - apply identity_shape.
  - left. simpl. lia.
Defined.

(** ** Cells 5 and 8: the program *)

Lemma skipn_flat_map_blocks {B : Type} (f : nat -> list B) m k a n :
  (forall x, length (f x) = m) -> (k <= n)%nat ->
  skipn (k * m) (flat_map f (seq a n)) = flat_map f (seq (a + k) (n - k)).
Proof.
  intros Hlen. revert a n. induction k as [|k IH]; intros a n Hk.
  - simpl. rewrite Nat.add_0_r, Nat.sub_0_r. reflexivity.
  - destruct n as [|n]; [lia|]. cbn [seq flat_map].
    replace (S k * m)%nat with (length (f a) + k * m)%nat
      by (rewrite Hlen; simpl; lia).
    rewrite skipn_app, skipn_all2 by lia.
    replace (length (f a) + k * m - length (f a))%nat with (k * m)%nat by lia.
    simpl app. rewrite IH by lia.
    replace (S a + k)%nat with (a + S k)%nat by lia. reflexivity.
Qed.

(** X12. For every [depth] the program of cell 8 is built without an index
    error; it holds [1 + 5 * depth] commands: the [Ket] command first, then
    for [k = 0, 1, ...] in order the five commands of layer [k], all on mode
    [0]. *)
Theorem build_structure (depth : nat) (in_ket : matrix) :
  exists prog,
    Circuit.build depth in_ket = Some prog /\
    length prog = (1 + 5 * depth)%nat /\
    nth_error prog 0 = Some (mkCommand (Ket in_ket) [O]) /\
    forall k, (k < depth)%nat ->
      firstn 5 (skipn (1 + k * 5) prog) = layer_commands k O.
Proof.
  eexists. split; [apply build_program|]. split; [|split].
  - cbn [length]. rewrite (flat_map_length_const _ _ 5), length_seq; [lia|].
    intros; reflexivity.
  - reflexivity.
  - intros k Hk. cbn [Nat.add skipn].
    rewrite (skipn_flat_map_blocks _ 5) by (try lia; intros; reflexivity).
    destruct (depth - k)%nat as [|d] eqn:E; [lia|].
    cbn [seq flat_map]. simpl Nat.add. reflexivity.
Qed.

(** ** Cells 18 and 19: symmetries of the process fidelity *)

Lemma icsum_conj n f : Cconj (icsum n f) = icsum n (fun k => Cconj (f k)).
Proof.
  induction n as [|n IH]; simpl; [apply Cconj_C0|].
  rewrite Cconj_add, IH. reflexivity.
Qed.

Lemma icsum_Cmul_l n e f : icsum n (fun k => Cmul e (f k)) = Cmul e (icsum n f).
Proof.
  induction n as [|n IH]; simpl; [symmetry; apply Cmul_0_r|].
  rewrite IH. symmetry. apply Cmul_add_distr_l.
Qed.

(** X13. The process fidelity does not depend on the order of its two
    matrices: exchanging target and learnt block gives the same value. *)
Theorem process_fidelity_symmetric (g : nat) (V U : matrix) :
  has_shape V g g -> has_shape U g g ->
  Diagnostics.process_fidelity g V U = Diagnostics.process_fidelity g U V.
Proof.
  intros HV HU.
  rewrite (process_fidelity_formula g V U HV HU),
          (process_fidelity_formula g U V HU HV).
  f_equal. rewrite <- Cnorm2_conj, icsum_conj. f_equal.
  apply icsum_ext. intros i _. rewrite icsum_conj.
  apply icsum_ext. intros k _. csimp.
Qed.

Lemma process_fidelity_symmetric_witness :
  Diagnostics.process_fidelity 2 [[C1; C0]; [C0; C1]] [[C0; C1]; [C1; C0]] =
  Diagnostics.process_fidelity 2 [[C0; C1]; [C1; C0]] [[C1; C0]; [C0; C1]].
Proof.
  apply (process_fidelity_symmetric 2);
    (split; [reflexivity | repeat constructor]).
Defined.

Lemma phased_batch_shape theta (ket_val : matrix) g c :
  has_shape ket_val g c ->
  has_shape (map (Diagnostics.phased theta) ket_val) g c.
Proof.
  intros [Hl Hf]. split; [rewrite length_map; exact Hl|].
  rewrite Forall_map. eapply Forall_impl; [|exact Hf].
  simpl. intros r Hr. unfold Diagnostics.phased. rewrite length_map. exact Hr.
Qed.

(** X14. The process fidelity does not see a global phase: multiplying
    every output state by the same [e^{i theta}] leaves it unchanged. *)
Theorem process_fidelity_global_phase (gate_cutoff cutoff : nat)
  (V ket_val : matrix) (theta : R) :
  has_shape V gate_cutoff gate_cutoff ->
  has_shape ket_val gate_cutoff cutoff -> (gate_cutoff <= cutoff)%nat ->
  Diagnostics.process_fidelity gate_cutoff V
    (Diagnostics.learnt_unitary (map (Diagnostics.phased theta) ket_val)
       gate_cutoff) =
  Diagnostics.process_fidelity gate_cutoff V
    (Diagnostics.learnt_unitary ket_val gate_cutoff).
Proof.
  intros HV Hk Hle.
  pose proof (phased_batch_shape theta ket_val _ _ Hk) as Hk'.
  rewrite (process_fidelity_formula gate_cutoff V _ HV
             (learnt_unitary_shape _ _ _ Hk' Hle)),
          (process_fidelity_formula gate_cutoff V _ HV
             (learnt_unitary_shape _ _ _ Hk Hle)).
  f_equal.
  rewrite <- (Rmult_1_l (Cnorm2 (icsum gate_cutoff (fun i =>
                icsum gate_cutoff (fun k =>
                  Cmul (Cconj (Cscale (/ sqrt (INR gate_cutoff))
                                 (Diagnostics.entry V k i)))
                       (Cscale (/ sqrt (INR gate_cutoff))
                          (Diagnostics.entry
                             (Diagnostics.learnt_unitary ket_val gate_cutoff)
                             k i))))))).
  rewrite <- (Cnorm2_Cexp_i theta), <- Cnorm2_mul, <- icsum_Cmul_l.
  f_equal. apply icsum_ext. intros i Hi. rewrite <- icsum_Cmul_l.
  apply icsum_ext. intros k Hk0.
  rewrite !(learnt_unitary_entry _ gate_cutoff cutoff) by assumption.
  rewrite (nth_map_rows (Diagnostics.phased theta))
    by (destruct Hk as [-> _]; exact Hi).
  rewrite nth_phased. csimp.
Qed.

Lemma process_fidelity_global_phase_witness :
  Diagnostics.process_fidelity 2 [[C1; C0]; [C0; C1]]
    (Diagnostics.learnt_unitary
       (map (Diagnostics.phased PI) [[C1; C0]; [C0; C1]]) 2) =
  Diagnostics.process_fidelity 2 [[C1; C0]; [C0; C1]]
    (Diagnostics.learnt_unitary [[C1; C0]; [C0; C1]] 2).
Proof.
  apply (process_fidelity_global_phase 2 2); try lia;
    (split; [reflexivity | repeat constructor]).
Defined.

(** ** Cells 11 and 16: the learnt block of the target kets *)

(** X15. Round trip between cells 11 and 16: with [gate_cutoff = 4 <=
    cutoff], if the final output batch is the batch of target kets, the
    learnt block extracted by cell 16 is the random unitary itself. *)
Theorem learnt_unitary_of_target_kets (ri : nat -> matrix)
  (c : Notebook.Config) :
  has_shape (ri 4%nat) 4 4 ->
  Notebook.gate_cutoff c = 4%nat -> (4 <= Notebook.cutoff c)%nat ->
  exists T tk,
    Notebook.target_unitary ri c = Some T /\
    Notebook.target_kets c T = Some tk /\
    Diagnostics.learnt_unitary tk (Notebook.gate_cutoff c) = ri 4%nat /\
    Diagnostics.learnt_unitary tk (Notebook.gate_cutoff c) =
    Diagnostics.target_block T (Notebook.gate_cutoff c).
Proof.
  intros Hri Hg Hc.
  destruct (target_unitary_entries ri c Hri Hg Hc) as (T & HT & Hs & HE).
  destruct (columns_in_range T (arange 4) (Notebook.cutoff c)
              (Notebook.cutoff c) Hs) as (tk & Htk & Htks).
  { lia. }
  { apply Forall_forall. intros i Hi. unfold arange in Hi.
    apply in_seq in Hi. lia. }
  change (length (arange 4)) with 4%nat in Htks.
  exists T, tk. split; [exact HT|].
  split; [unfold Notebook.target_kets; rewrite Hg; exact Htk|].
  rewrite Hg.
  assert (Hl : Diagnostics.learnt_unitary tk 4 = Diagnostics.target_block T 4).
  { apply (matrix_ext _ _ 4 4).
    - apply (learnt_unitary_shape tk 4 (Notebook.cutoff c)); assumption.
    - apply (target_block_shape T 4 (Notebook.cutoff c)); assumption.
    - intros k j Hk Hj.
      rewrite (learnt_unitary_entry tk 4 (Notebook.cutoff c)) by assumption.
      apply (target_kets_entry T (Notebook.cutoff c) 4 tk k j); assumption. }
  split; [|exact Hl]. rewrite Hl.
  apply (matrix_ext _ _ 4 4).
  - apply (target_block_shape T 4 (Notebook.cutoff c)); assumption.
  - exact Hri.
  - intros k j Hk Hj. unfold Diagnostics.target_block.
    rewrite slice2_entry by assumption. rewrite HE by lia.
    destruct (Nat.ltb_spec k 4), (Nat.ltb_spec j 4); try lia. reflexivity.
Qed.

Lemma learnt_unitary_of_target_kets_witness :
  exists T tk,
    Notebook.target_unitary identity
      (Notebook.mkConfig 10 4 25 1000 (1 / 10) (1 / 1000)) = Some T /\
    Notebook.target_kets (Notebook.mkConfig 10 4 25 1000 (1 / 10) (1 / 1000)) T
    = Some tk /\
    Diagnostics.learnt_unitary tk 4 = identity 4 /\
    Diagnostics.learnt_unitary tk 4 = Diagnostics.target_block T 4.
Proof.
  apply (learnt_unitary_of_target_kets identity
           (Notebook.mkConfig 10 4 25 1000 (1 / 10) (1 / 1000))).
  - apply identity_shape.
  - reflexivity.
  - simpl. lia.
Defined.

(** ** Cells 11 to 13: what the histories hold *)

Lemma fetch_at_from_run (Session : Type)
  (session_run : Session -> option (Session * Driver.Fetch)) k s0 f :
  Driver.fetch_at Session session_run k s0 = Some f ->
  exists s s', session_run s = Some (s', f).
Proof.
  unfold Driver.fetch_at.
  destruct (Driver.session_at Session session_run k s0) as [s|]; [|discriminate].
  destruct (session_run s) as [[s' f']|] eqn:E; [|discriminate].
  simpl. intros H. injection H as <-. exists s, s'. exact E.
Qed.

(** What one [session.run] of the notebook fetches. *)
Lemma session_run_fetch (Slots : Type)
  (min_cost : Program -> matrix ->
              GateParameterSet * Slots -> GateParameterSet * Slots)
  (c : Notebook.Config) (prog : Program) (tk : matrix)
  (s s' : GateParameterSet * Slots) (f : Driver.Fetch) :
  Notebook.session_run Slots min_cost c prog tk s = Some (s', f) ->
  Cost.evaluate
    (Backend.run_engine (Notebook.cutoff c) (Notebook.gate_cutoff c) prog (fst s))
    tk = Some (Driver.cost_val f, Driver.overlaps_val f).
Proof.
  unfold Notebook.session_run.
  destruct (Cost.evaluate _ tk) as [[cost ov]|]; [|discriminate].
  intros H. injection H as _ <-. reflexivity.
Qed.

(** X16. In a run with [gate_cutoff = 4 <= cutoff], [depth >= 1] and
    [reps >= 1], every recorded overlaps vector has length [gate_cutoff],
    and the first recorded cost and overlaps are those of the circuit at
    the initial parameters: iteration [0] records the forward pass made
    before any update. *)
Theorem run_history_consistent (draws : Family -> nat -> R)
  (random_interferometer : nat -> matrix) (Slots : Type) (slots0 : Slots)
  (min_cost : Program -> matrix ->
              GateParameterSet * Slots -> GateParameterSet * Slots)
  (c : Notebook.Config) :
  has_shape (random_interferometer 4%nat) 4 4 ->
  Notebook.gate_cutoff c = 4%nat -> (4 <= Notebook.cutoff c)%nat ->
  (1 <= Notebook.depth c)%nat -> (1 <= Notebook.reps c)%Z ->
  exists final pr prog target tk,
    Notebook.run draws random_interferometer Slots slots0 min_cost c
    = Notebook.Completed final pr /\
    Circuit.build (Notebook.depth c) (Notebook.in_ket c) = Some prog /\
    Notebook.target_unitary random_interferometer c = Some target /\
    Notebook.target_kets c target = Some tk /\
    (forall k, (k < Z.to_nat (Notebook.reps c))%nat ->
       length (nth k (Driver.overlap_progress pr) []) = Notebook.gate_cutoff c) /\
    Cost.evaluate
      (Backend.run_engine (Notebook.cutoff c) (Notebook.gate_cutoff c) prog
         (initialize draws (Notebook.depth c) (Notebook.passive_sd c)
            (Notebook.active_sd c)))
      tk
    = Some (nth 0 (Driver.cost_progress pr) 0,
            nth 0 (Driver.overlap_progress pr) []).
Proof.
  intros Hri Hg Hc Hd Hreps. unfold Notebook.run. rewrite build_program.
  rewrite (minimize_with_layers _ _ Hd).
  destruct (target_unitary_entries random_interferometer c Hri Hg Hc)
    as (T & HT & Hts & _).
  rewrite HT.
  destruct (columns_in_range T (arange (Notebook.gate_cutoff c))
              (Notebook.cutoff c) (Notebook.cutoff c) Hts) as (tk & Htk & Htks).
  { lia. }
  { apply Forall_forall. intros i Hi. unfold arange in Hi.
    apply in_seq in Hi. lia. }
  unfold arange in Htks. rewrite length_seq in Htks.
  unfold Notebook.target_kets. rewrite Htk.
  set (prog := mkCommand (Ket (Notebook.in_ket c)) [O]
               :: flat_map (fun k => layer_commands k O)
                    (seq 0 (Notebook.depth c))).
  set (sr := Notebook.session_run Slots min_cost c prog tk).
  assert (Hshape : forall p,
            has_shape (Backend.run_engine (Notebook.cutoff c)
                         (Notebook.gate_cutoff c) prog p)
              (Notebook.gate_cutoff c) (Notebook.cutoff c)).
  { intros p. unfold prog. rewrite run_engine_build. apply ket_shape. }
  assert (Hfetch : forall s s' f, sr s = Some (s', f) ->
            length (Driver.overlaps_val f) = Notebook.gate_cutoff c).
  { intros s s' f Hrun. apply session_run_fetch in Hrun.
    destruct (evaluate_value _ _ _ tk (Hshape (fst s)) Htks)
      as (ov & Hev & Hlen & _).
    rewrite Hev in Hrun. injection Hrun as _ <-. exact Hlen. }
  assert (Hret : forall s, sr s <> None).
  { intros s. unfold sr, Notebook.session_run.
    destruct (evaluate_value _ _ _ tk (Hshape (fst s)) Htks)
      as (ov & Hev & _).
    rewrite Hev. discriminate. }
  unfold Driver.optimise.
  destruct (for_loop_history _ sr Hret (Driver.range (Notebook.reps c))
              (initialize draws (Notebook.depth c) (Notebook.passive_sd c)
                 (Notebook.active_sd c), slots0) Driver.start)
    as (s & pr & fs & Hl & Hlen & _ & Hcp & Hop & Hf).
  rewrite Hl. exists (fst s), pr, prog, T, tk.
  split; [reflexivity|]. split; [reflexivity|]. split; [reflexivity|].
  split; [exact Htk|].
  rewrite range_length in Hlen, Hf. simpl in Hcp, Hop.
  assert (Hentry : forall k f, nth_error fs k = Some f ->
            nth k (Driver.cost_progress pr) 0 = Driver.cost_val f /\
            nth k (Driver.overlap_progress pr) [] = Driver.overlaps_val f).
  { intros k f Ef. rewrite Hcp, Hop. split; apply nth_error_nth;
      rewrite nth_error_map, Ef; reflexivity. }
  split.
  - intros k Hk. specialize (Hf k Hk).
    destruct (nth_error fs k) as [f|] eqn:Ef;
      [|apply nth_error_None in Ef; lia].
    destruct (fetch_at_from_run _ sr k _ f Hf) as (s1 & s2 & Hrun).
    rewrite (proj2 (Hentry k f Ef)). apply (Hfetch s1 s2 f Hrun).
  - assert (H0 : (0 < Z.to_nat (Notebook.reps c))%nat) by lia.
    specialize (Hf O H0).
    destruct (nth_error fs 0) as [f|] eqn:Ef;
      [|apply nth_error_None in Ef; lia].
    destruct (Hentry O f Ef) as [-> ->].
    unfold Driver.fetch_at in Hf. simpl in Hf.
    destruct (sr (initialize draws (Notebook.depth c) (Notebook.passive_sd c)
                    (Notebook.active_sd c), slots0)) as [[s1 f1]|] eqn:Hrun;
      [|discriminate].
    simpl in Hf. injection Hf as ->.
    apply (session_run_fetch Slots min_cost c prog tk _ s1 f Hrun).
Qed.

Lemma run_history_consistent_witness :
  exists final pr prog target tk,
    Notebook.run (fun _ _ => 0) identity unit tt (fun _ _ s => s)
      (Notebook.mkConfig 10 4 25 1000 (1 / 10) (1 / 1000))
    = Notebook.Completed final pr /\
    Circuit.build 25
      (Notebook.in_ket (Notebook.mkConfig 10 4 25 1000 (1 / 10) (1 / 1000)))
    = Some prog /\
    Notebook.target_unitary identity
      (Notebook.mkConfig 10 4 25 1000 (1 / 10) (1 / 1000)) = Some target /\
    Notebook.target_kets (Notebook.mkConfig 10 4 25 1000 (1 / 10) (1 / 1000))
      target = Some tk /\
    (forall k, (k < Z.to_nat 1000)%nat ->
       length (nth k (Driver.overlap_progress pr) []) = 4%nat) /\
    Cost.evaluate
      (Backend.run_engine 10 4 prog
         (initialize (fun _ _ => 0) 25 (1 / 10) (1 / 1000)))
      tk
    = Some (nth 0 (Driver.cost_progress pr) 0,
            nth 0 (Driver.overlap_progress pr) []).
Proof.
  apply (run_history_consistent (fun _ _ => 0) identity unit tt
           (fun _ _ s => s)
           (Notebook.mkConfig 10 4 25 1000 (1 / 10) (1 / 1000))).
  - apply identity_shape.
  - reflexivity.
  - simpl. lia.
  - simpl. lia.
  - simpl. lia.
Defined.

(** ** Cells 5 and 8 on the modelled backend: a circuit of identity layers *)

Lemma apply_layers_identity cutoff p ks psi :
  (forall i, In i ks ->
     nth i (r1 p) 0 = 0 /\ nth i (sq_r p) 0 = 0 /\ nth i (r2 p) 0 = 0 /\
     nth i (d_r p) 0 = 0 /\ nth i (kappa p) 0 = 0) ->
  length psi = cutoff ->
  Backend.apply_layers cutoff p ks psi = psi.
Proof.
  induction ks as [|k ks IH]; intros H Hlen; [reflexivity|].
  simpl. destruct (H k (or_introl eq_refl)) as (H1 & H2 & H3 & H4 & H5).
  rewrite apply_layer_identity by assumption.
  apply IH; [|exact Hlen]. intros i Hi. apply H. right. exact Hi.
Qed.

(** X17. If in every layer the two rotation angles, the squeeze and
    displacement magnitudes and the Kerr strength are [0] (the phases being
    arbitrary), the whole circuit of cell 8 returns its input kets: the
    state it defines is [in_ket]. *)
Theorem zero_parameters_identity_circuit (c : Notebook.Config)
  (p : GateParameterSet) :
  (forall i, (i < Notebook.depth c)%nat ->
     nth i (r1 p) 0 = 0 /\ nth i (sq_r p) 0 = 0 /\ nth i (r2 p) 0 = 0 /\
     nth i (d_r p) 0 = 0 /\ nth i (kappa p) 0 = 0) ->
  exists prog,
    Circuit.build (Notebook.depth c) (Notebook.in_ket c) = Some prog /\
    Backend.run_engine (Notebook.cutoff c) (Notebook.gate_cutoff c) prog p
    = Notebook.in_ket c.
Proof.
  intros Hz. eexists. split; [apply build_program|].
  rewrite run_engine_build.
  rewrite <- (map_id (Notebook.in_ket c)) at 2. apply map_ext_in.
  intros psi Hin. unfold Backend.per_input.
  apply apply_layers_identity.
  - intros i Hi. apply in_seq in Hi. apply Hz. lia.
  - destruct (in_ket_shape (Notebook.gate_cutoff c) (Notebook.cutoff c))
      as [_ Hf].
    rewrite Forall_forall in Hf. apply Hf. exact Hin.
Qed.

Lemma zero_parameters_identity_circuit_witness :
  exists prog,
    Circuit.build 1 (Notebook.in_ket (Notebook.mkConfig 3 2 1 1 (1 / 10) 0))
    = Some prog /\
    Backend.run_engine 3 2 prog (mkParams [0] [0] [3 / 10] [0] [0] [7 / 10] [0])
    = Notebook.in_ket (Notebook.mkConfig 3 2 1 1 (1 / 10) 0).
Proof.
  apply (zero_parameters_identity_circuit
           (Notebook.mkConfig 3 2 1 1 (1 / 10) 0)
           (mkParams [0] [0] [3 / 10] [0] [0] [7 / 10] [0])).
  intros i Hi. simpl in Hi. assert (i = O) by lia. subst i.
  repeat split; reflexivity.
Defined.
